(** * RiskControl: risk scoring and the assessment ledger

    A shallow embedding of [contracts/RiskControl.sol] (the plaintext
    contract) and of [contracts/RiskControlFHE.sol] (the contract [FHERC]
    over encrypted 32-bit integers), with the properties of the scoring
    engine, the ledger, the batch entry point and the owner gate.

    Conventions.
    - A [uint256] is a [Z] in [0, 2^256 - 1].  Solidity 0.8 arithmetic is
      checked: [+] and [*] revert with a panic when the mathematical result
      leaves that range, and [/] truncates (and panics on a zero divisor).
    - A call either returns a value together with the new state, or reverts;
      a reverted call leaves the state as it was.
    - [msg.sender] and [block.timestamp] are explicit arguments.
    - [keccak256(abi.encodePacked(a)) == keccak256(abi.encodePacked(b))] on
      two strings is modelled as equality of the strings.
    - Gas is not modelled: every call runs to its end. *)

From Stdlib Require Import ZArith Lia.
From stdpp Require Import gmap strings list.

Open Scope Z_scope.

(** ** Machine integers and reverts *)

Definition MAX_UINT256 : Z := 2 ^ 256 - 1.

Definition is_uint256 (x : Z) : Prop := 0 <= x <= MAX_UINT256.

(** A revert carries the message of the failed [require]; [Panic] is the
    compiler-inserted failure of checked arithmetic or of an array access
    out of bounds. *)
Inductive error : Type :=
| Revert (reason : string)
| Panic.

Inductive result (A : Type) : Type :=
| Ok (a : A)
| Err (e : error).
Arguments Ok {A} a.
Arguments Err {A} e.

Definition bind {A B : Type} (r : result A) (k : A -> result B) : result B :=
  match r with
  | Ok a => k a
  | Err e => Err e
  end.

Notation "x <- r ;; k" := (bind r (fun x => k))
  (at level 100, r at next level, right associativity).

Definition require (b : bool) (reason : string) : result unit :=
  if b then Ok tt else Err (Revert reason).

Definition checked_add (a b : Z) : result Z :=
  if a + b <=? MAX_UINT256 then Ok (a + b) else Err Panic.

Definition checked_mul (a b : Z) : result Z :=
  if a * b <=? MAX_UINT256 then Ok (a * b) else Err Panic.

Definition checked_div (a b : Z) : result Z :=
  if b =? 0 then Err Panic else Ok (a / b).

(** The failure classes of the specification, as the messages the contracts
    revert with. *)
Definition InvalidInput : error := Revert "Client ID cannot be empty".
Definition LengthMismatch : error := Revert "Input arrays must have the same length".
Definition NotFound : error := Revert "No assessment found for this client ID".
Definition Unauthorized : error := Revert "Only contract owner can perform this action".
Definition ZeroOwner : error := Revert "New owner cannot be zero address".

Definition address : Type := Z.

Definition nonempty (s : string) : bool := (0 <? String.length s)%nat.

(** ** The plaintext contract *)

Module RiskControl.

Record RiskParameters : Type := mkParams {
  incomeMultiplier : Z;
  riskThreshold : Z
}.

Record AssessmentResult : Type := mkResult {
  creditLimit : Z;
  riskScore : Z;
  approved : bool;
  clientId : string;
  timestamp : Z
}.

Inductive event : Type :=
| AssessmentPerformed (cid : string) (limit score : Z) (ok : bool) (ts : Z)
| BatchAssessmentPerformed (count ts : Z)
| ParametersUpdated (ts : Z).

Record state : Type := mkState {
  owner : address;
  riskParameters : RiskParameters;
  assessmentResults : gmap string AssessmentResult;
  allClientIds : list string;
  events : list event
}.

(** The value a Solidity mapping holds at a key never written. *)
Definition zero_result : AssessmentResult :=
  mkResult 0 0 false "" 0.

Definition read (m : gmap string AssessmentResult) (k : string) : AssessmentResult :=
  match m !! k with
  | Some r => r
  | None => zero_result
  end.

Definition constructor (sender : address) : state :=
  mkState sender (mkParams 2 50) ∅ [] [].

Fixpoint clientIdExists_from (ids : list string) (c : string) : bool :=
  match ids with
  | [] => false
  | x :: rest => if String.eqb x c then true else clientIdExists_from rest c
  end.

Definition clientIdExists (s : state) (c : string) : bool :=
  clientIdExists_from (allClientIds s) c.

Definition calculateRiskScore (age income : Z) : result Z :=
  ageFactor <- (if 40 <? age then Ok 40
                else (p <- checked_mul age 40 ;; checked_div p 40)) ;;
  incomeInDollars <- checked_div income (10 ^ 6) ;;
  q <- checked_div incomeInDollars 1000 ;;
  incomeFactor <- (if 60 <? q then Ok 60 else checked_div incomeInDollars 1000) ;;
  checked_add ageFactor incomeFactor.

Definition assessRisk (now : Z) (age income : Z) (cid : string) (s : state)
  : result ((Z * Z * bool) * state) :=
  _ <- require (nonempty cid) "Client ID cannot be empty" ;;
  score <- calculateRiskScore age income ;;
  let ok := riskThreshold (riskParameters s) <=? score in
  limit <- (if ok
            then (monthly <- checked_div income 12 ;;
                  checked_mul monthly (incomeMultiplier (riskParameters s)))
            else Ok 0) ;;
  let results := <[cid := mkResult limit score ok cid now]> (assessmentResults s) in
  let s1 := mkState (owner s) (riskParameters s) results (allClientIds s) (events s) in
  let ids := if clientIdExists s1 cid then allClientIds s1 else allClientIds s1 ++ [cid] in
  Ok ((limit, score, ok),
      mkState (owner s) (riskParameters s) results ids
              (events s ++ [AssessmentPerformed cid limit score ok now])).

(** The loop of [batchAssessRisk]: [try this.assessRisk(...)] keeps the
    callee's writes when it returns and discards them when it reverts.
    [successCount] is bounded by the length of the arrays, so its increment
    cannot overflow.  The last case is an index out of bounds, which the
    length check of [batchAssessRisk] excludes. *)
Fixpoint batch_loop (now : Z) (ages incomes : list Z) (cids : list string)
         (successCount : Z) (s : state) : result (Z * state) :=
  match ages, incomes, cids with
  | [], _, _ => Ok (successCount, s)
  | a :: ages', i :: incomes', c :: cids' =>
      match assessRisk now a i c s with
      | Ok (_, s') => batch_loop now ages' incomes' cids' (successCount + 1) s'
      | Err _ => batch_loop now ages' incomes' cids' successCount s
      end
  | _, _, _ => Err Panic
  end.

Definition batchAssessRisk (now : Z) (ages incomes : list Z) (cids : list string)
           (s : state) : result (Z * state) :=
  _ <- require (Nat.eqb (length ages) (length incomes)
                && Nat.eqb (length incomes) (length cids))
               "Input arrays must have the same length" ;;
  r <- batch_loop now ages incomes cids 0 s ;;
  let '(successCount, s') := r in
  Ok (successCount,
      mkState (owner s') (riskParameters s') (assessmentResults s') (allClientIds s')
              (events s' ++ [BatchAssessmentPerformed successCount now])).

Definition getAssessmentResult (s : state) (cid : string) : result (Z * Z * bool * Z) :=
  _ <- require (nonempty cid) "Client ID cannot be empty" ;;
  let r := read (assessmentResults s) cid in
  _ <- require (nonempty (clientId r)) "No assessment found for this client ID" ;;
  Ok (creditLimit r, riskScore r, approved r, timestamp r).

Definition getBatchAssessmentResults (s : state) (cids : list string)
  : list AssessmentResult :=
  map (read (assessmentResults s)) cids.

Definition getAllClientIds (s : state) : list string := allClientIds s.

Definition getAssessmentCount (s : state) : Z := Z.of_nat (length (allClientIds s)).

Definition onlyOwner (sender : address) (s : state) : result unit :=
  require (sender =? owner s) "Only contract owner can perform this action".

Definition updateRiskParameters (sender : address) (now : Z) (m t : Z) (s : state)
  : result (unit * state) :=
  _ <- onlyOwner sender s ;;
  Ok (tt, mkState (owner s) (mkParams m t) (assessmentResults s) (allClientIds s)
                  (events s ++ [ParametersUpdated now])).

Definition getRiskParameters (s : state) : RiskParameters := riskParameters s.

Definition transferOwnership (sender : address) (newOwner : address) (s : state)
  : result (unit * state) :=
  _ <- onlyOwner sender s ;;
  _ <- require (negb (newOwner =? 0)) "New owner cannot be zero address" ;;
  Ok (tt, mkState newOwner (riskParameters s) (assessmentResults s) (allClientIds s)
                  (events s)).

Definition getOwner (s : state) : address := owner s.

End RiskControl.

(** ** Transactions and reachable states of the plaintext contract *)

Inductive call : Type :=
| AssessRisk (age income : Z) (cid : string)
| BatchAssessRisk (ages incomes : list Z) (cids : list string)
| UpdateRiskParameters (m t : Z)
| TransferOwnership (newOwner : address).

Record tx : Type := mkTx {
  tx_sender : address;
  tx_now : Z;
  tx_msg : call
}.

Definition uint256b (x : Z) : bool := (0 <=? x) && (x <=? MAX_UINT256).

(** Arguments as the ABI decoder delivers them. *)
Definition wf_call (c : call) : bool :=
  match c with
  | AssessRisk age income _ => uint256b age && uint256b income
  | BatchAssessRisk ages incomes _ => forallb uint256b ages && forallb uint256b incomes
  | UpdateRiskParameters m t => uint256b m && uint256b t
  | TransferOwnership newOwner => uint256b newOwner
  end.

Definition wf_tx (t : tx) : bool :=
  uint256b (tx_sender t) && uint256b (tx_now t) && wf_call (tx_msg t).

Definition state_of {A : Type} (s : RiskControl.state) (r : result (A * RiskControl.state))
  : RiskControl.state :=
  match r with
  | Ok (_, s') => s'
  | Err _ => s
  end.

(** The state a transaction leaves behind: the callee's on success, the
    old one when the call reverts. *)
Definition exec (t : tx) (s : RiskControl.state) : RiskControl.state :=
  match tx_msg t with
  | AssessRisk age income cid =>
      state_of s (RiskControl.assessRisk (tx_now t) age income cid s)
  | BatchAssessRisk ages incomes cids =>
      state_of s (RiskControl.batchAssessRisk (tx_now t) ages incomes cids s)
  | UpdateRiskParameters m th =>
      state_of s (RiskControl.updateRiskParameters (tx_sender t) (tx_now t) m th s)
  | TransferOwnership newOwner =>
      state_of s (RiskControl.transferOwnership (tx_sender t) newOwner s)
  end.

Definition run (ts : list tx) (s : RiskControl.state) : RiskControl.state :=
  fold_left (fun st t => exec t st) ts s.

Inductive reachable : RiskControl.state -> Prop :=
| reachable_deploy (deployer : address) :
    uint256b deployer = true -> reachable (RiskControl.constructor deployer)
| reachable_exec (s : RiskControl.state) (t : tx) :
    reachable s -> wf_tx t = true -> reachable (exec t s).

(** *** Where a stored record came from

    Beside the state, remember for every client identifier the income
    argument of the call that last wrote its record and the parameters the
    contract held during that call.  The contract does not keep this; it is
    bookkeeping for stating what a stored record satisfies. *)

Record origin : Type := mkOrigin {
  o_income : Z;
  o_params : RiskControl.RiskParameters
}.

Fixpoint batch_origins (now : Z) (ages incomes : list Z) (cids : list string)
         (s : RiskControl.state) (g : gmap string origin) : gmap string origin :=
  match ages, incomes, cids with
  | a :: ages', i :: incomes', c :: cids' =>
      match RiskControl.assessRisk now a i c s with
      | Ok (_, s') =>
          batch_origins now ages' incomes' cids' s'
                        (<[c := mkOrigin i (RiskControl.riskParameters s)]> g)
      | Err _ => batch_origins now ages' incomes' cids' s g
      end
  | _, _, _ => g
  end.

Definition origins_after (t : tx) (s : RiskControl.state) (g : gmap string origin)
  : gmap string origin :=
  match tx_msg t with
  | AssessRisk age income cid =>
      match RiskControl.assessRisk (tx_now t) age income cid s with
      | Ok _ => <[cid := mkOrigin income (RiskControl.riskParameters s)]> g
      | Err _ => g
      end
  | BatchAssessRisk ages incomes cids =>
      match RiskControl.batchAssessRisk (tx_now t) ages incomes cids s with
      | Ok _ => batch_origins (tx_now t) ages incomes cids s g
      | Err _ => g
      end
  | UpdateRiskParameters _ _ => g
  | TransferOwnership _ => g
  end.

Inductive reachable_from : RiskControl.state -> gmap string origin -> Prop :=
| reachable_from_deploy (deployer : address) :
    uint256b deployer = true -> reachable_from (RiskControl.constructor deployer) ∅
| reachable_from_exec (s : RiskControl.state) (g : gmap string origin) (t : tx) :
    reachable_from s g -> wf_tx t = true ->
    reachable_from (exec t s) (origins_after t s g).

(** ** The formulas of the specification *)

Definition ageFactor (age : Z) : Z := Z.min age 40.

Definition incomeFactor (income : Z) : Z := Z.min ((income / 10 ^ 6) / 1000) 60.

Definition spec_score (age income : Z) : Z := ageFactor age + incomeFactor income.

Definition spec_approved (p : RiskControl.RiskParameters) (score : Z) : bool :=
  RiskControl.riskThreshold p <=? score.

Definition spec_limit (p : RiskControl.RiskParameters) (income : Z) (ok : bool) : Z :=
  if ok then (income / 12) * RiskControl.incomeMultiplier p else 0.

(** The record an assessment of [(age, income, cid)] at time [now] stores
    under parameters [p]. *)
Definition spec_record (p : RiskControl.RiskParameters) (now age income : Z) (cid : string)
  : RiskControl.AssessmentResult :=
  let score := spec_score age income in
  let ok := spec_approved p score in
  RiskControl.mkResult (spec_limit p income ok) score ok cid now.

(** Whether the product of the credit limit, when it is computed, fits a
    [uint256]. *)
Definition limit_fits (p : RiskControl.RiskParameters) (age income : Z) : bool :=
  if spec_approved p (spec_score age income)
  then (income / 12) * RiskControl.incomeMultiplier p <=? MAX_UINT256
  else true.

(** A record on which a single assessment succeeds. *)
Definition valid_record (p : RiskControl.RiskParameters) (it : Z * Z * string) : bool :=
  let '(age, income, cid) := it in
  nonempty cid && limit_fits p age income.

Definition upsert_id (ids : list string) (cid : string) : list string :=
  if RiskControl.clientIdExists_from ids cid then ids else ids ++ [cid].

Definition assessment_event (r : RiskControl.AssessmentResult) : RiskControl.event :=
  RiskControl.AssessmentPerformed (RiskControl.clientId r) (RiskControl.creditLimit r)
    (RiskControl.riskScore r) (RiskControl.approved r) (RiskControl.timestamp r).

(** The state after the record [r] has been upserted and announced. *)
Definition persist (r : RiskControl.AssessmentResult) (s : RiskControl.state)
  : RiskControl.state :=
  RiskControl.mkState (RiskControl.owner s) (RiskControl.riskParameters s)
    (<[RiskControl.clientId r := r]> (RiskControl.assessmentResults s))
    (upsert_id (RiskControl.allClientIds s) (RiskControl.clientId r))
    (RiskControl.events s ++ [assessment_event r]).

Definition record_of (p : RiskControl.RiskParameters) (now : Z) (it : Z * Z * string)
  : RiskControl.AssessmentResult :=
  let '(age, income, cid) := it in spec_record p now age income cid.

Definition persist_all (p : RiskControl.RiskParameters) (now : Z)
           (items : list (Z * Z * string)) (s : RiskControl.state) : RiskControl.state :=
  fold_left (fun st it => persist (record_of p now it) st) items s.

Definition zip3 (ages incomes : list Z) (cids : list string) : list (Z * Z * string) :=
  combine (combine ages incomes) cids.

(** *** Properties of the ledger *)

Fixpoint occurrences (cid : string) (ids : list string) : nat :=
  match ids with
  | [] => 0%nat
  | x :: rest => ((if String.eqb x cid then 1 else 0) + occurrences cid rest)%nat
  end.

(** The index lists each assessed identifier once, the identifiers listed
    are those with a stored record, and a stored record carries its own,
    non-empty key. *)
Definition ledger_consistent (s : RiskControl.state) : Prop :=
  NoDup (RiskControl.allClientIds s)
  /\ (forall k, k ∈ RiskControl.allClientIds s
                <-> is_Some (RiskControl.assessmentResults s !! k))
  /\ (forall k r, RiskControl.assessmentResults s !! k = Some r ->
                  RiskControl.clientId r = k /\ k <> "").

(** A record agrees with the parameters [p] and the income [income]. *)
Definition record_justified (p : RiskControl.RiskParameters) (income : Z)
           (r : RiskControl.AssessmentResult) : Prop :=
  RiskControl.approved r = spec_approved p (RiskControl.riskScore r)
  /\ (RiskControl.approved r = false -> RiskControl.creditLimit r = 0)
  /\ (RiskControl.approved r = true ->
      RiskControl.creditLimit r = (income / 12) * RiskControl.incomeMultiplier p).

(** Every stored record agrees with the parameters held when it was written. *)
Definition records_justified (s : RiskControl.state) (g : gmap string origin) : Prop :=
  forall k r, RiskControl.assessmentResults s !! k = Some r ->
              exists o, g !! k = Some o /\ record_justified (o_params o) (o_income o) r.

(** Every stored record agrees with the parameters held now. *)
Definition records_current (s : RiskControl.state) (g : gmap string origin) : Prop :=
  forall k r, RiskControl.assessmentResults s !! k = Some r ->
              exists o, g !! k = Some o
                        /\ record_justified (RiskControl.riskParameters s) (o_income o) r.

Definition origins_current (s : RiskControl.state) (g : gmap string origin) : Prop :=
  forall k o, g !! k = Some o -> o_params o = RiskControl.riskParameters s.

Definition is_update (c : call) : bool :=
  match c with
  | UpdateRiskParameters _ _ => true
  | _ => false
  end.

(** ** The confidential contract *)

(** Modelled from the spec: the operations of the library [@fhevm/solidity]
    ([asEuint32], [add], [mul], [div], [gt], [cmux], [sealoutput]), which the
    contract imports and the repository does not contain.  They are given
    by what they compute on the plaintexts behind the handles: an [euint32]
    holds a value modulo [2^32], [add] and [mul] wrap around, [div]
    truncates (a zero divisor yields the largest value), [gt] is the strict
    greater-than and [cmux c a b] is [a] when [c] holds and [b] otherwise.
    No operation reverts.  [dec] and [decb] stand for decryption by the key
    holder; the contract never calls them. *)

Module FHE.

Record euint32 : Type := Enc { dec : Z }.
Record ebool : Type := EncBool { decb : bool }.
Record sealed (A : Type) : Type := Seal { unseal : A }.
Arguments Seal {A} _.
Arguments unseal {A} _.

Definition wrap32 (x : Z) : Z := x mod 2 ^ 32.

Definition asEuint32 (x : Z) : euint32 := Enc (wrap32 x).
Definition add (a b : euint32) : euint32 := Enc (wrap32 (dec a + dec b)).
Definition mul (a b : euint32) : euint32 := Enc (wrap32 (dec a * dec b)).
Definition div (a b : euint32) : euint32 :=
  Enc (if dec b =? 0 then 2 ^ 32 - 1 else dec a / dec b).
Definition gt (a b : euint32) : ebool := EncBool (dec b <? dec a).
Definition cmux (c : ebool) (a b : euint32) : euint32 := if decb c then a else b.
Definition sealoutput {A : Type} (a : A) : sealed A := Seal a.

End FHE.

Definition is_uint32 (x : Z) : Prop := 0 <= x < 2 ^ 32.

Module FHERC.

Import FHE.

Record RiskParameters : Type := mkParams {
  incomeMultiplier : euint32;
  riskThreshold : euint32
}.

Record EncryptedAssessment : Type := mkAssessment {
  creditLimit : euint32;
  riskScore : euint32;
  approved : ebool;
  clientId : string;
  timestamp : Z
}.

Inductive event : Type :=
| AssessmentPerformed (cid : string) (limit score : sealed euint32)
                      (ok : sealed ebool) (ts : Z)
| BatchAssessmentPerformed (count ts : Z)
| ParametersUpdated (ts : Z).

Record state : Type := mkState {
  owner : address;
  riskParameters : RiskParameters;
  encryptedAssessments : gmap string EncryptedAssessment;
  allClientIds : list string;
  events : list event
}.

Definition constructor (sender : address) : state :=
  mkState sender (mkParams (asEuint32 2) (asEuint32 50)) ∅ [] [].

Fixpoint clientIdExists_from (ids : list string) (c : string) : bool :=
  match ids with
  | [] => false
  | x :: rest => if String.eqb x c then true else clientIdExists_from rest c
  end.

Definition clientIdExists (s : state) (c : string) : bool :=
  clientIdExists_from (allClientIds s) c.

Definition calculateEncryptedRiskScore (encryptedAge encryptedIncome : euint32)
  : euint32 :=
  let ageFactor :=
    cmux (gt encryptedAge (asEuint32 40))
         (asEuint32 40)
         (div (mul encryptedAge (asEuint32 40)) (asEuint32 40)) in
  let incomeInDollars := div encryptedIncome (asEuint32 (10 ^ 6)) in
  let incomeFactor :=
    cmux (gt (div incomeInDollars (asEuint32 1000)) (asEuint32 60))
         (asEuint32 60)
         (div incomeInDollars (asEuint32 1000)) in
  add ageFactor incomeFactor.

Definition assessRiskEncrypted (now : Z) (encryptedAge encryptedIncome : euint32)
           (cid : string) (s : state)
  : result ((euint32 * euint32 * ebool) * state) :=
  _ <- require (nonempty cid) "Client ID cannot be empty" ;;
  let encryptedRiskScore := calculateEncryptedRiskScore encryptedAge encryptedIncome in
  let encryptedApproved := gt encryptedRiskScore (riskThreshold (riskParameters s)) in
  let product :=
    mul (div encryptedIncome (asEuint32 12)) (incomeMultiplier (riskParameters s)) in
  let encryptedCreditLimit := cmux encryptedApproved product (asEuint32 0) in
  let stored :=
    <[cid := mkAssessment encryptedCreditLimit encryptedRiskScore encryptedApproved
                          cid now]> (encryptedAssessments s) in
  let ids := if clientIdExists s cid then allClientIds s else allClientIds s ++ [cid] in
  Ok ((encryptedCreditLimit, encryptedRiskScore, encryptedApproved),
      mkState (owner s) (riskParameters s) stored ids
              (events s ++ [AssessmentPerformed cid
                              (sealoutput encryptedCreditLimit)
                              (sealoutput encryptedRiskScore)
                              (sealoutput encryptedApproved) now])).

Definition onlyOwner (sender : address) (s : state) : result unit :=
  require (sender =? owner s) "Only contract owner can perform this action".

Definition updateRiskParametersEncrypted (sender : address) (now : Z)
           (encryptedMultiplier encryptedThreshold : euint32) (s : state)
  : result (unit * state) :=
  _ <- onlyOwner sender s ;;
  Ok (tt, mkState (owner s) (mkParams encryptedMultiplier encryptedThreshold)
                  (encryptedAssessments s) (allClientIds s)
                  (events s ++ [ParametersUpdated now])).

(** The value the mapping holds at a key never written: zero handles and
    the empty identifier. *)
Definition zero_assessment : EncryptedAssessment :=
  mkAssessment (Enc 0) (Enc 0) (EncBool false) "" 0.

Definition read (m : gmap string EncryptedAssessment) (k : string) : EncryptedAssessment :=
  match m !! k with
  | Some r => r
  | None => zero_assessment
  end.

Fixpoint batch_loop (now : Z) (encryptedAges encryptedIncomes : list euint32)
         (cids : list string) (successCount : Z) (s : state) : result (Z * state) :=
  match encryptedAges, encryptedIncomes, cids with
  | [], _, _ => Ok (successCount, s)
  | a :: ages', i :: incomes', c :: cids' =>
      match assessRiskEncrypted now a i c s with
      | Ok (_, s') => batch_loop now ages' incomes' cids' (successCount + 1) s'
      | Err _ => batch_loop now ages' incomes' cids' successCount s
      end
  | _, _, _ => Err Panic
  end.

Definition batchAssessRiskEncrypted (now : Z) (encryptedAges encryptedIncomes : list euint32)
           (cids : list string) (s : state) : result (Z * state) :=
  _ <- require (Nat.eqb (length encryptedAges) (length encryptedIncomes)
                && Nat.eqb (length encryptedIncomes) (length cids))
               "Input arrays must have the same length" ;;
  r <- batch_loop now encryptedAges encryptedIncomes cids 0 s ;;
  let '(successCount, s') := r in
  Ok (successCount,
      mkState (owner s') (riskParameters s') (encryptedAssessments s') (allClientIds s')
              (events s' ++ [BatchAssessmentPerformed successCount now])).

Definition getEncryptedAssessmentResult (s : state) (cid : string)
  : result (euint32 * euint32 * ebool * Z) :=
  _ <- require (nonempty cid) "Client ID cannot be empty" ;;
  let r := read (encryptedAssessments s) cid in
  _ <- require (nonempty (clientId r)) "No assessment found for this client ID" ;;
  Ok (creditLimit r, riskScore r, approved r, timestamp r).

Definition getAllClientIds (s : state) : list string := allClientIds s.

Definition getAssessmentCount (s : state) : Z := Z.of_nat (length (allClientIds s)).

Definition transferOwnership (sender : address) (newOwner : address) (s : state)
  : result (unit * state) :=
  _ <- onlyOwner sender s ;;
  _ <- require (negb (newOwner =? 0)) "New owner cannot be zero address" ;;
  Ok (tt, mkState newOwner (riskParameters s) (encryptedAssessments s) (allClientIds s)
                  (events s)).

Definition getOwner (s : state) : address := owner s.

End FHERC.

(** *** Decryption of what the confidential contract holds and returns *)

Definition decrypt_params (p : FHERC.RiskParameters) : RiskControl.RiskParameters :=
  RiskControl.mkParams (FHE.dec (FHERC.incomeMultiplier p)) (FHE.dec (FHERC.riskThreshold p)).

Definition decrypt_record (r : FHERC.EncryptedAssessment) : RiskControl.AssessmentResult :=
  RiskControl.mkResult (FHE.dec (FHERC.creditLimit r)) (FHE.dec (FHERC.riskScore r))
                       (FHE.decb (FHERC.approved r)) (FHERC.clientId r)
                       (FHERC.timestamp r).

Definition decrypt_event (e : FHERC.event) : RiskControl.event :=
  match e with
  | FHERC.AssessmentPerformed cid limit score ok ts =>
      RiskControl.AssessmentPerformed cid (FHE.dec (FHE.unseal limit))
                                      (FHE.dec (FHE.unseal score))
                                      (FHE.decb (FHE.unseal ok)) ts
  | FHERC.BatchAssessmentPerformed count ts => RiskControl.BatchAssessmentPerformed count ts
  | FHERC.ParametersUpdated ts => RiskControl.ParametersUpdated ts
  end.

Definition decrypt_state (s : FHERC.state) : RiskControl.state :=
  RiskControl.mkState (FHERC.owner s) (decrypt_params (FHERC.riskParameters s))
                      (decrypt_record <$> FHERC.encryptedAssessments s)
                      (FHERC.allClientIds s)
                      (map decrypt_event (FHERC.events s)).

Definition decrypt_outcome (r : (FHE.euint32 * FHE.euint32 * FHE.ebool) * FHERC.state)
  : (Z * Z * bool) * RiskControl.state :=
  let '((limit, score, ok), s) := r in
  ((FHE.dec limit, FHE.dec score, FHE.decb ok), decrypt_state s).

Definition map_result {A B : Type} (f : A -> B) (r : result A) : result B :=
  match r with
  | Ok a => Ok (f a)
  | Err e => Err e
  end.

(** The claim that the two paths agree on one assessment, as a property of
    the inputs and of the state of the confidential contract. *)
Definition paths_agree (now age income : Z) (cid : string) (sf : FHERC.state) : Prop :=
  map_result decrypt_outcome
    (FHERC.assessRiskEncrypted now (FHE.Enc age) (FHE.Enc income) cid sf)
  = RiskControl.assessRisk now age income cid (decrypt_state sf).

(** ** Transactions and reachable states of the confidential contract *)

Inductive enc_call : Type :=
| AssessRiskEncrypted (encryptedAge encryptedIncome : FHE.euint32) (cid : string)
| BatchAssessRiskEncrypted (encryptedAges encryptedIncomes : list FHE.euint32)
                           (cids : list string)
| UpdateRiskParametersEncrypted (encryptedMultiplier encryptedThreshold : FHE.euint32)
| TransferOwnershipEncrypted (newOwner : address).

Record enc_tx : Type := mkEncTx {
  enc_sender : address;
  enc_now : Z;
  enc_msg : enc_call
}.

Definition enc_state_of {A : Type} (s : FHERC.state) (r : result (A * FHERC.state))
  : FHERC.state :=
  match r with
  | Ok (_, s') => s'
  | Err _ => s
  end.

Definition enc_exec (t : enc_tx) (s : FHERC.state) : FHERC.state :=
  match enc_msg t with
  | AssessRiskEncrypted a i cid =>
      enc_state_of s (FHERC.assessRiskEncrypted (enc_now t) a i cid s)
  | BatchAssessRiskEncrypted ages incomes cids =>
      enc_state_of s (FHERC.batchAssessRiskEncrypted (enc_now t) ages incomes cids s)
  | UpdateRiskParametersEncrypted m th =>
      enc_state_of s (FHERC.updateRiskParametersEncrypted (enc_sender t) (enc_now t) m th s)
  | TransferOwnershipEncrypted newOwner =>
      enc_state_of s (FHERC.transferOwnership (enc_sender t) newOwner s)
  end.

Inductive enc_reachable : FHERC.state -> Prop :=
| enc_reachable_deploy (deployer : address) :
    enc_reachable (FHERC.constructor deployer)
| enc_reachable_exec (s : FHERC.state) (t : enc_tx) :
    enc_reachable s -> enc_reachable (enc_exec t s).

Definition enc_ledger_consistent (s : FHERC.state) : Prop :=
  NoDup (FHERC.allClientIds s)
  /\ (forall k, k ∈ FHERC.allClientIds s
                <-> is_Some (FHERC.encryptedAssessments s !! k))
  /\ (forall k r, FHERC.encryptedAssessments s !! k = Some r ->
                  FHERC.clientId r = k /\ k <> "").

(** ** Further definitions for the plaintext contract *)

(** The single assessments a batch stands for, as transactions of their own. *)
Definition single_txs (from now : Z) (items : list (Z * Z * string)) : list tx :=
  map (fun it : Z * Z * string =>
         let '(age, income, cid) := it in mkTx from now (AssessRisk age income cid))
      items.

(** The ledger without its event log. *)
Definition storage (s : RiskControl.state)
  : address * RiskControl.RiskParameters * gmap string RiskControl.AssessmentResult
    * list string :=
  (RiskControl.owner s, RiskControl.riskParameters s, RiskControl.assessmentResults s,
   RiskControl.allClientIds s).



(** ** Arithmetic of the scoring engine *)

Lemma MAX_UINT256_eq :
  MAX_UINT256 =
  115792089237316195423570985008687907853269984665640564039457584007913129639935.
Proof. reflexivity. Qed.

Lemma uint256b_spec (x : Z) : uint256b x = true <-> is_uint256 x.
Proof.
  unfold uint256b, is_uint256. rewrite andb_true_iff, !Z.leb_le. tauto.
Qed.

Lemma checked_mul_ok (a b : Z) : a * b <= MAX_UINT256 -> checked_mul a b = Ok (a * b).
Proof. intros H. unfold checked_mul. apply Z.leb_le in H. now rewrite H. Qed.

Lemma checked_add_ok (a b : Z) : a + b <= MAX_UINT256 -> checked_add a b = Ok (a + b).
Proof. intros H. unfold checked_add. apply Z.leb_le in H. now rewrite H. Qed.

Lemma checked_div_ok (a b : Z) : b <> 0 -> checked_div a b = Ok (a / b).
Proof. intros H. unfold checked_div. apply Z.eqb_neq in H. now rewrite H. Qed.

Lemma ageFactor_range (age : Z) : 0 <= age -> 0 <= ageFactor age <= 40.
Proof. unfold ageFactor. lia. Qed.

Lemma incomeFactor_range (income : Z) : 0 <= income -> 0 <= incomeFactor income <= 60.
Proof.
  intros H. unfold incomeFactor.
  assert (0 <= income / 10 ^ 6 / 1000).
  { apply Z.div_pos; [apply Z.div_pos|]; lia. }
  lia.
Qed.

Lemma spec_score_range (age income : Z) :
  0 <= age -> 0 <= income -> 0 <= spec_score age income <= 100.
Proof.
  intros Ha Hi. unfold spec_score.
  pose proof (ageFactor_range age Ha). pose proof (incomeFactor_range income Hi). lia.
Qed.

(** The code's score is the specification's formula, and the computation
    never panics on non-negative inputs. *)
Lemma calculateRiskScore_spec (age income : Z) :
  0 <= age -> 0 <= income ->
  RiskControl.calculateRiskScore age income = Ok (spec_score age income).
Proof.
  intros Ha Hi.
  pose proof (spec_score_range age income Ha Hi) as Hr.
  pose proof MAX_UINT256_eq as HM.
  unfold RiskControl.calculateRiskScore, spec_score, ageFactor, incomeFactor in *.
  rewrite (checked_div_ok income (10 ^ 6)) by lia. cbn [bind].
  rewrite (checked_div_ok (income / 10 ^ 6) 1000) by lia.
  destruct (40 <? age) eqn:Hage; cbn [bind].
  - apply Z.ltb_lt in Hage.
    destruct (60 <? income / 10 ^ 6 / 1000) eqn:Hq; cbn [bind].
    + apply Z.ltb_lt in Hq. rewrite checked_add_ok by lia. f_equal. lia.
    + apply Z.ltb_ge in Hq. rewrite checked_add_ok by lia. f_equal. lia.
  - apply Z.ltb_ge in Hage.
    rewrite checked_mul_ok by lia. cbn [bind].
    rewrite checked_div_ok by lia. rewrite Z.div_mul by lia. cbn [bind].
    destruct (60 <? income / 10 ^ 6 / 1000) eqn:Hq; cbn [bind].
    + apply Z.ltb_lt in Hq. rewrite checked_add_ok by lia. f_equal. lia.
    + apply Z.ltb_ge in Hq. rewrite checked_add_ok by lia. f_equal. lia.
Qed.

(** C4. For every [uint256] age and income, [calculateRiskScore] returns
    [min(age, 40) + min((income / 10^6) / 1000, 60)], every division
    truncating toward zero ([Z.quot]); the age factor is [age] up to 40 and
    40 above; and the score lies in [0, 100]. *)
Theorem calculateRiskScore_formula (age income : Z) :
  is_uint256 age -> is_uint256 income ->
  RiskControl.calculateRiskScore age income
    = Ok (Z.min age 40 + Z.min (Z.quot (Z.quot income (10 ^ 6)) 1000) 60)
  /\ (age <= 40 -> ageFactor age = age)
  /\ (40 < age -> ageFactor age = 40)
  /\ (exists score, RiskControl.calculateRiskScore age income = Ok score
                    /\ 0 <= score <= 100).
Proof.
  intros [Ha _] [Hi _].
  assert (Hq : Z.quot (Z.quot income (10 ^ 6)) 1000 = income / 10 ^ 6 / 1000).
  { rewrite (Z.quot_div_nonneg income) by lia.
    apply Z.quot_div_nonneg; [apply Z.div_pos|]; lia. }
  rewrite Hq. rewrite calculateRiskScore_spec by assumption.
  repeat split.
  - unfold ageFactor. lia.
  - unfold ageFactor. lia.
  - exists (spec_score age income). split; [reflexivity|].
    now apply spec_score_range.
Qed.

Lemma calculateRiskScore_formula_witness :
  RiskControl.calculateRiskScore 35 50000000000 = Ok 85.
Proof.
  destruct (calculateRiskScore_formula 35 50000000000) as [H _].
  - unfold is_uint256. rewrite MAX_UINT256_eq. lia.
  - unfold is_uint256. rewrite MAX_UINT256_eq. lia.
  - exact H.
Defined.

(** ** A single assessment *)

Lemma nonempty_false (cid : string) : nonempty cid = false <-> cid = "".
Proof.
  unfold nonempty. destruct cid as [|a cid]; cbn; split; intros H; congruence.
Qed.

Lemma nonempty_true (cid : string) : nonempty cid = true <-> cid <> "".
Proof.
  rewrite <- nonempty_false. destruct (nonempty cid); split; congruence.
Qed.

(** What [assessRisk] does, case by case. *)
Lemma assessRisk_eq (now age income : Z) (cid : string) (s : RiskControl.state) :
  0 <= age -> 0 <= income ->
  RiskControl.assessRisk now age income cid s =
  if nonempty cid
  then if limit_fits (RiskControl.riskParameters s) age income
       then let r := spec_record (RiskControl.riskParameters s) now age income cid in
            Ok ((RiskControl.creditLimit r, RiskControl.riskScore r, RiskControl.approved r),
                persist r s)
       else Err Panic
  else Err InvalidInput.
Proof.
  intros Ha Hi. unfold RiskControl.assessRisk.
  destruct (nonempty cid); cbn [require bind]; [|reflexivity].
  rewrite calculateRiskScore_spec by assumption. cbn [bind].
  unfold limit_fits, spec_record, spec_limit, spec_approved, persist, upsert_id,
    assessment_event, RiskControl.clientIdExists.
  cbn [RiskControl.creditLimit RiskControl.riskScore RiskControl.approved
       RiskControl.clientId RiskControl.timestamp RiskControl.allClientIds].
  destruct (RiskControl.riskThreshold (RiskControl.riskParameters s)
            <=? spec_score age income); cbn [bind].
  - rewrite checked_div_ok by lia. cbn [bind]. unfold checked_mul.
    destruct (income / 12 * RiskControl.incomeMultiplier (RiskControl.riskParameters s)
              <=? MAX_UINT256); reflexivity.
  - reflexivity.
Qed.

Lemma limit_fits_default (p : RiskControl.RiskParameters) (age income : Z) :
  p = RiskControl.mkParams 2 50 -> is_uint256 income ->
  income / 12 * 2 <= MAX_UINT256 /\ limit_fits p age income = true.
Proof.
  intros -> [Hi Hm].
  assert (H : income / 12 * 2 <= MAX_UINT256).
  { assert (income / 12 * 12 <= income) by (rewrite Z.mul_comm; apply Z.mul_div_le; lia).
    assert (0 <= income / 12) by (apply Z.div_pos; lia). lia. }
  split; [exact H|]. unfold limit_fits. cbn [RiskControl.incomeMultiplier].
  destruct (spec_approved _ _); [now apply Z.leb_le | reflexivity].
Qed.

(** C3 (as the code has it). With the default parameters, assessing
    [(35, 50_000_000_000, "client-1")] returns [riskScore = 85],
    [approved = true] and [creditLimit = 8_333_333_332]: the credit limit is
    [(income / 12) * 2] on the raw six-decimal income, not on the income in
    whole units. *)
Theorem assess_example (now : Z) (s : RiskControl.state) :
  RiskControl.riskParameters s = RiskControl.mkParams 2 50 ->
  exists s', RiskControl.assessRisk now 35 50000000000 "client-1" s
             = Ok ((8333333332, 85, true), s')
             /\ RiskControl.getAssessmentResult s' "client-1"
                = Ok (8333333332, 85, true, now).
Proof.
  intros Hp. rewrite assessRisk_eq by lia. rewrite Hp. cbn [nonempty].
  eexists. split; [reflexivity|].
  unfold RiskControl.getAssessmentResult, RiskControl.read, persist.
  cbn [RiskControl.assessmentResults RiskControl.clientId spec_record].
  rewrite lookup_insert_eq. reflexivity.
Qed.

Lemma assess_example_witness :
  exists s', RiskControl.assessRisk 1700000000 35 50000000000 "client-1"
               (RiskControl.constructor 1)
             = Ok ((8333333332, 85, true), s').
Proof.
  destruct (assess_example 1700000000 (RiskControl.constructor 1) eq_refl) as [s' [H _]].
  exists s'. exact H.
Defined.

(** The example of the specification, with [creditLimit = 8332], is not what
    the contract returns. *)
Lemma assess_example_8332_fails :
  ~ (exists s', RiskControl.assessRisk 1700000000 35 50000000000 "client-1"
                  (RiskControl.constructor 1)
                = Ok ((8332, 85, true), s')).
Proof.
  intros [s' H]. rewrite assessRisk_eq in H by lia.
  cbn [nonempty String.length Nat.ltb Nat.leb] in H.
  change (limit_fits (RiskControl.riskParameters (RiskControl.constructor 1))
                     35 50000000000) with true in H.
  cbv zeta in H. injection H as Hlimit _.
  vm_compute in Hlimit. discriminate Hlimit.
Qed.

(** C10. With the default parameters, for every [uint256] age and income
    [assessRisk] reverts exactly when the client identifier is empty (and
    then with the identifier's message): the score never overflows, and
    [(income / 12) * 2] stays within [uint256]. *)
Theorem assessRisk_fails_iff_empty (now age income : Z) (cid : string)
        (s : RiskControl.state) :
  RiskControl.riskParameters s = RiskControl.mkParams 2 50 ->
  is_uint256 age -> is_uint256 income ->
  ((exists e, RiskControl.assessRisk now age income cid s = Err e) <-> cid = "")
  /\ (cid = "" -> RiskControl.assessRisk now age income cid s = Err InvalidInput)
  /\ (exists score, RiskControl.calculateRiskScore age income = Ok score)
  /\ (exists limit, (monthly <- checked_div income 12 ;; checked_mul monthly 2) = Ok limit).
Proof.
  intros Hp Ha Hi.
  destruct (limit_fits_default _ age income Hp Hi) as [Hle Hfit].
  destruct Ha as [Ha _]. pose proof Hi as [Hi0 _].
  rewrite assessRisk_eq by assumption. rewrite Hfit.
  repeat split.
  - intros [e He]. destruct (nonempty cid) eqn:Hn; [discriminate He|].
    now apply nonempty_false.
  - intros ->. cbn. eauto.
  - intros ->. reflexivity.
  - exists (spec_score age income). now apply calculateRiskScore_spec.
  - exists (income / 12 * 2). rewrite checked_div_ok by lia. cbn [bind].
    now apply checked_mul_ok.
Qed.

Lemma assessRisk_fails_iff_empty_witness :
  RiskControl.assessRisk 0 MAX_UINT256 MAX_UINT256 "" (RiskControl.constructor 1)
  = Err InvalidInput
  /\ ~ (exists e, RiskControl.assessRisk 0 MAX_UINT256 MAX_UINT256 "c"
                    (RiskControl.constructor 1) = Err e).
Proof.
  assert (Hu : is_uint256 MAX_UINT256) by (unfold is_uint256; rewrite MAX_UINT256_eq; lia).
  split.
  - destruct (assessRisk_fails_iff_empty 0 MAX_UINT256 MAX_UINT256 ""
                (RiskControl.constructor 1) eq_refl Hu Hu) as (_ & H & _).
    apply H. reflexivity.
  - intros He.
    destruct (assessRisk_fails_iff_empty 0 MAX_UINT256 MAX_UINT256 "c"
                (RiskControl.constructor 1) eq_refl Hu Hu) as (H & _).
    apply H in He. discriminate He.
Defined.

(** ** Rejected calls *)

Lemma lengths_check (ages incomes : list Z) (cids : list string) :
  Nat.eqb (length ages) (length incomes) && Nat.eqb (length incomes) (length cids) = true
  <-> length ages = length incomes /\ length incomes = length cids.
Proof. rewrite andb_true_iff, !Nat.eqb_eq. tauto. Qed.

(** C7. When the three arrays do not all have the same length,
    [batchAssessRisk] reverts with the length message before the loop, and
    the transaction leaves the state as it was: no record, no index entry,
    no event. *)
Theorem batch_length_mismatch (from now : Z) (ages incomes : list Z) (cids : list string)
        (s : RiskControl.state) :
  ~ (length ages = length incomes /\ length incomes = length cids) ->
  RiskControl.batchAssessRisk now ages incomes cids s = Err LengthMismatch
  /\ exec (mkTx from now (BatchAssessRisk ages incomes cids)) s = s.
Proof.
  intros Hne. rewrite <- lengths_check in Hne. apply not_true_is_false in Hne.
  assert (H : RiskControl.batchAssessRisk now ages incomes cids s = Err LengthMismatch).
  { unfold RiskControl.batchAssessRisk. rewrite Hne. reflexivity. }
  split; [exact H|]. unfold exec. cbn [tx_msg tx_now]. rewrite H. reflexivity.
Qed.

Lemma batch_length_mismatch_witness :
  RiskControl.batchAssessRisk 7 [30; 45] [1000000000] ["a"; "b"] (RiskControl.constructor 1)
  = Err LengthMismatch
  /\ exec (mkTx 1 7 (BatchAssessRisk [30; 45] [1000000000] ["a"; "b"]))
          (RiskControl.constructor 1)
     = RiskControl.constructor 1.
Proof.
  apply (batch_length_mismatch 1 7 [30; 45] [1000000000] ["a"; "b"]).
  cbn. intros [H _]. discriminate H.
Defined.

(** C8. Called by anyone but the owner, [updateRiskParameters] reverts with
    the owner message and the transaction leaves the state as it was: the
    parameters read back are those held before, and no event is added. *)
Theorem update_by_non_owner (from now m t : Z) (s : RiskControl.state) :
  from <> RiskControl.owner s ->
  RiskControl.updateRiskParameters from now m t s = Err Unauthorized
  /\ exec (mkTx from now (UpdateRiskParameters m t)) s = s
  /\ RiskControl.getRiskParameters (exec (mkTx from now (UpdateRiskParameters m t)) s)
     = RiskControl.getRiskParameters s
  /\ RiskControl.events (exec (mkTx from now (UpdateRiskParameters m t)) s)
     = RiskControl.events s.
Proof.
  intros Hne. apply Z.eqb_neq in Hne.
  assert (H : RiskControl.updateRiskParameters from now m t s = Err Unauthorized).
  { unfold RiskControl.updateRiskParameters, RiskControl.onlyOwner. rewrite Hne.
    reflexivity. }
  assert (He : exec (mkTx from now (UpdateRiskParameters m t)) s = s).
  { unfold exec. cbn [tx_msg tx_now tx_sender]. rewrite H. reflexivity. }
  rewrite He. auto.
Qed.

Lemma update_by_non_owner_witness :
  RiskControl.updateRiskParameters 2 9 1000 0 (RiskControl.constructor 1) = Err Unauthorized
  /\ RiskControl.getRiskParameters
       (exec (mkTx 2 9 (UpdateRiskParameters 1000 0)) (RiskControl.constructor 1))
     = RiskControl.mkParams 2 50.
Proof.
  destruct (update_by_non_owner 2 9 1000 0 (RiskControl.constructor 1)) as (H & _ & Hp & _).
  - cbn. lia.
  - split; [exact H | exact Hp].
Defined.

(** ** The ledger and its index *)

Lemma clientIdExists_from_spec (ids : list string) (c : string) :
  RiskControl.clientIdExists_from ids c = true <-> c ∈ ids.
Proof.
  induction ids as [|x ids IH]; cbn.
  - split; [discriminate | intros H; inversion H].
  - destruct (String.eqb x c) eqn:E.
    + apply String.eqb_eq in E. subst. split; [intros _; left | reflexivity].
    + apply String.eqb_neq in E. rewrite IH. split.
      * intros H. now right.
      * intros H. inversion H; subst; [congruence | assumption].
Qed.

Lemma upsert_id_elem (ids : list string) (c k : string) :
  k ∈ upsert_id ids c <-> k ∈ ids \/ k = c.
Proof.
  unfold upsert_id. destruct (RiskControl.clientIdExists_from ids c) eqn:E.
  - apply clientIdExists_from_spec in E. split; [tauto|]. intros [H| ->]; assumption.
  - rewrite elem_of_app, list_elem_of_singleton. tauto.
Qed.

Lemma upsert_id_NoDup (ids : list string) (c : string) :
  NoDup ids -> NoDup (upsert_id ids c).
Proof.
  intros Hnd. unfold upsert_id.
  destruct (RiskControl.clientIdExists_from ids c) eqn:E; [assumption|].
  apply NoDup_app. split; [assumption|]. split.
  - intros x Hx Hc. apply list_elem_of_singleton in Hc. subst x.
    apply clientIdExists_from_spec in Hx. congruence.
  - apply NoDup_singleton.
Qed.

Lemma upsert_id_present (ids : list string) (c : string) :
  c ∈ ids -> upsert_id ids c = ids.
Proof.
  intros H. apply clientIdExists_from_spec in H. unfold upsert_id. now rewrite H.
Qed.

Lemma occurrences_absent (cid : string) (ids : list string) :
  cid ∉ ids -> occurrences cid ids = 0%nat.
Proof.
  induction ids as [|x ids IH]; cbn; [reflexivity|]. intros H.
  rewrite not_elem_of_cons in H. destruct H as [Hne Hni].
  destruct (String.eqb x cid) eqn:E.
  - apply String.eqb_eq in E. congruence.
  - now rewrite IH.
Qed.

Lemma occurrences_NoDup (cid : string) (ids : list string) :
  NoDup ids -> cid ∈ ids -> occurrences cid ids = 1%nat.
Proof.
  induction 1 as [|x ids Hx Hnd IH]; intros Hin; [inversion Hin|]. cbn.
  destruct (String.eqb x cid) eqn:E.
  - apply String.eqb_eq in E. subst x. now rewrite occurrences_absent.
  - apply String.eqb_neq in E. apply elem_of_cons in Hin.
    destruct Hin as [->|Hin]; [congruence|]. now rewrite IH.
Qed.

(** A successful [assessRisk] is the upsert of the record it computed. *)
Lemma assessRisk_inv (now age income : Z) (cid : string) (s s' : RiskControl.state)
      (res : Z * Z * bool) :
  RiskControl.assessRisk now age income cid s = Ok (res, s') ->
  exists r,
    s' = persist r s
    /\ res = (RiskControl.creditLimit r, RiskControl.riskScore r, RiskControl.approved r)
    /\ RiskControl.clientId r = cid /\ cid <> "" /\ RiskControl.timestamp r = now
    /\ RiskControl.calculateRiskScore age income = Ok (RiskControl.riskScore r)
    /\ record_justified (RiskControl.riskParameters s) income r.
Proof.
  unfold RiskControl.assessRisk. destruct (nonempty cid) eqn:Hn; [|discriminate].
  cbn [require bind].
  destruct (RiskControl.calculateRiskScore age income) as [score|e]; [|discriminate].
  cbn [bind]. unfold RiskControl.clientIdExists.
  cbn [RiskControl.allClientIds].
  set (ok := RiskControl.riskThreshold (RiskControl.riskParameters s) <=? score).
  assert (Hlim : forall limit,
             (if ok then (monthly <- checked_div income 12 ;;
                          checked_mul monthly
                            (RiskControl.incomeMultiplier (RiskControl.riskParameters s)))
              else Ok 0) = Ok limit ->
             record_justified (RiskControl.riskParameters s) income
                              (RiskControl.mkResult limit score ok cid now)).
  { intros limit Hl. unfold record_justified, spec_approved.
    cbn [RiskControl.approved RiskControl.riskScore RiskControl.creditLimit].
    split; [reflexivity|]. destruct ok.
    - rewrite checked_div_ok in Hl by lia. cbn [bind] in Hl. unfold checked_mul in Hl.
      destruct (_ <=? MAX_UINT256); [|discriminate]. injection Hl as <-.
      split; [discriminate | reflexivity].
    - injection Hl as <-. split; [reflexivity | discriminate]. }
  destruct (if ok then _ else _) as [limit|e]; [|discriminate].
  cbn [bind]. intros H. injection H as <- <-.
  exists (RiskControl.mkResult limit score ok cid now).
  repeat split; try reflexivity; try (apply (Hlim limit eq_refl)).
  now apply nonempty_true.
Qed.

Lemma persist_consistent (r : RiskControl.AssessmentResult) (s : RiskControl.state) :
  RiskControl.clientId r <> "" -> ledger_consistent s -> ledger_consistent (persist r s).
Proof.
  intros Hne (Hnd & Hidx & Hkey). unfold ledger_consistent, persist.
  cbn [RiskControl.allClientIds RiskControl.assessmentResults].
  split; [now apply upsert_id_NoDup|]. split.
  - intros k. rewrite upsert_id_elem.
    destruct (decide (RiskControl.clientId r = k)) as [<-|Hk].
    + rewrite lookup_insert_eq. split; [eauto | now right].
    + rewrite lookup_insert_ne by assumption. rewrite <- Hidx.
      split; [intros [H|H]; [assumption | congruence] | now left].
  - intros k r0 H. destruct (decide (RiskControl.clientId r = k)) as [<-|Hk].
    + rewrite lookup_insert_eq in H. injection H as <-. now split.
    + rewrite lookup_insert_ne in H by assumption. now apply (Hkey k r0).
Qed.

(** What every successful iteration of the batch loop preserves, the loop
    preserves. *)
Lemma batch_loop_preserves (P : RiskControl.state -> Prop) (now : Z) :
  (forall a i c s res s',
      P s -> RiskControl.assessRisk now a i c s = Ok (res, s') -> P s') ->
  forall ages incomes cids n s n' s',
    P s -> RiskControl.batch_loop now ages incomes cids n s = Ok (n', s') -> P s'.
Proof.
  intros Hstep. induction ages as [|a ages IH]; intros incomes cids n s n' s' HP H.
  - cbn in H. now injection H as _ <-.
  - destruct incomes as [|i incomes]; [discriminate|].
    destruct cids as [|c cids]; [discriminate|]. cbn in H.
    destruct (RiskControl.assessRisk now a i c s) as [[res s1]|e] eqn:E.
    + apply (IH _ _ _ _ _ _ (Hstep _ _ _ _ _ _ HP E) H).
    + apply (IH _ _ _ _ _ _ HP H).
Qed.

Lemma batchAssessRisk_inv (now : Z) (ages incomes : list Z) (cids : list string)
      (s s' : RiskControl.state) (n : Z) :
  RiskControl.batchAssessRisk now ages incomes cids s = Ok (n, s') ->
  exists s1, RiskControl.batch_loop now ages incomes cids 0 s = Ok (n, s1)
             /\ s' = RiskControl.mkState (RiskControl.owner s1)
                       (RiskControl.riskParameters s1) (RiskControl.assessmentResults s1)
                       (RiskControl.allClientIds s1)
                       (RiskControl.events s1
                          ++ [RiskControl.BatchAssessmentPerformed n now]).
Proof.
  unfold RiskControl.batchAssessRisk.
  destruct (_ && _); [|discriminate]. cbn [require bind].
  destruct (RiskControl.batch_loop now ages incomes cids 0 s) as [[n1 s1]|e];
    [|discriminate].
  cbn [bind]. intros H. injection H as <- <-. now exists s1.
Qed.

(** Case analysis on the owner gate of [updateRiskParameters] and
    [transferOwnership], and on the zero-address check of the latter. *)
Ltac gated_cases t s :=
  unfold RiskControl.updateRiskParameters, RiskControl.transferOwnership,
    RiskControl.onlyOwner;
  destruct (tx_sender t =? RiskControl.owner s); cbn;
  try match goal with
      | |- context [negb (?o =? 0)] => destruct (negb (o =? 0)); cbn
      end.

Lemma consistent_same_ledger (s s' : RiskControl.state) :
  RiskControl.allClientIds s' = RiskControl.allClientIds s ->
  RiskControl.assessmentResults s' = RiskControl.assessmentResults s ->
  ledger_consistent s -> ledger_consistent s'.
Proof. unfold ledger_consistent. intros -> ->. tauto. Qed.

Lemma assessRisk_consistent (now age income : Z) (cid : string)
      (s s' : RiskControl.state) (res : Z * Z * bool) :
  ledger_consistent s -> RiskControl.assessRisk now age income cid s = Ok (res, s') ->
  ledger_consistent s'.
Proof.
  intros Hc H. apply assessRisk_inv in H as (r & -> & _ & Hid & Hne & _).
  apply persist_consistent; [congruence | assumption].
Qed.

Lemma exec_consistent (t : tx) (s : RiskControl.state) :
  ledger_consistent s -> ledger_consistent (exec t s).
Proof.
  intros Hc. unfold exec. destruct (tx_msg t) as [age income cid|ages incomes cids|m th|o].
  - destruct (RiskControl.assessRisk _ _ _ _ _) as [[res s']|e] eqn:E; cbn; [|assumption].
    eapply assessRisk_consistent; eassumption.
  - destruct (RiskControl.batchAssessRisk _ _ _ _ _) as [[n s']|e] eqn:E; cbn; [|assumption].
    apply batchAssessRisk_inv in E as (s1 & Hloop & ->).
    apply (consistent_same_ledger s1); [reflexivity | reflexivity |].
    eapply (batch_loop_preserves ledger_consistent); [|exact Hc|exact Hloop].
    intros a i c s0 res s0' H0 H1. eapply assessRisk_consistent; eassumption.
  - gated_cases t s; assumption.
  - gated_cases t s; assumption.
Qed.

Lemma constructor_consistent (deployer : address) :
  ledger_consistent (RiskControl.constructor deployer).
Proof.
  unfold ledger_consistent, RiskControl.constructor. cbn. split; [apply NoDup_nil_2|].
  split.
  - intros k. rewrite lookup_empty. split; [intros H; inversion H | intros [x H]; discriminate].
  - intros k r H. rewrite lookup_empty in H. discriminate.
Qed.

Lemma reachable_consistent (s : RiskControl.state) : reachable s -> ledger_consistent s.
Proof.
  induction 1 as [d Hd|s t Hs IH Ht].
  - apply constructor_consistent.
  - now apply exec_consistent.
Qed.

Lemma run_consistent (ts : list tx) (s : RiskControl.state) :
  ledger_consistent s -> ledger_consistent (run ts s).
Proof.
  revert s. induction ts as [|t ts IH]; intros s Hc; [assumption|].
  cbn. apply IH. now apply exec_consistent.
Qed.

Lemma exec_keeps_ids (k : string) (t : tx) (s : RiskControl.state) :
  k ∈ RiskControl.allClientIds s -> k ∈ RiskControl.allClientIds (exec t s).
Proof.
  intros Hk.
  assert (Hstep : forall now a i c s0 res s0',
             k ∈ RiskControl.allClientIds s0 ->
             RiskControl.assessRisk now a i c s0 = Ok (res, s0') ->
             k ∈ RiskControl.allClientIds s0').
  { intros now a i c s0 res s0' H0 H. apply assessRisk_inv in H as (r & -> & _).
    unfold persist. cbn. apply upsert_id_elem. now left. }
  unfold exec. destruct (tx_msg t) as [age income cid|ages incomes cids|m th|o].
  - destruct (RiskControl.assessRisk _ _ _ _ _) as [[res s']|e] eqn:E; cbn; [|assumption].
    eapply Hstep; eassumption.
  - destruct (RiskControl.batchAssessRisk _ _ _ _ _) as [[n s']|e] eqn:E; cbn; [|assumption].
    apply batchAssessRisk_inv in E as (s1 & Hloop & ->). cbn.
    eapply (batch_loop_preserves (fun s0 => k ∈ RiskControl.allClientIds s0));
      [|exact Hk|exact Hloop].
    intros a i c s0 res s0'. apply Hstep.
  - gated_cases t s; assumption.
  - gated_cases t s; assumption.
Qed.

Lemma run_keeps_ids (k : string) (ts : list tx) (s : RiskControl.state) :
  k ∈ RiskControl.allClientIds s -> k ∈ RiskControl.allClientIds (run ts s).
Proof.
  revert s. induction ts as [|t ts IH]; intros s Hk; [assumption|].
  cbn. apply IH. now apply exec_keeps_ids.
Qed.

Lemma get_stored (s : RiskControl.state) (k : string) (r : RiskControl.AssessmentResult) :
  RiskControl.assessmentResults s !! k = Some r -> RiskControl.clientId r = k -> k <> "" ->
  RiskControl.getAssessmentResult s k
  = Ok (RiskControl.creditLimit r, RiskControl.riskScore r, RiskControl.approved r,
        RiskControl.timestamp r).
Proof.
  intros Hl Hid Hne. unfold RiskControl.getAssessmentResult, RiskControl.read.
  apply nonempty_true in Hne. rewrite Hl. cbv zeta.
  rewrite Hid, Hne. reflexivity.
Qed.

(** C9. In every reachable state, each identifier that [getAllClientIds]
    returns has a stored record whose [clientId] field is that identifier
    and is not empty, so [getAssessmentResult] returns for it; and the
    [clientId] field read from the mapping is non-empty exactly for the
    identifiers in the index. *)
Theorem index_entries_resolve (s : RiskControl.state) :
  reachable s ->
  (forall id, id ∈ RiskControl.getAllClientIds s ->
     (exists r, RiskControl.assessmentResults s !! id = Some r
                /\ RiskControl.clientId r = id /\ id <> "")
     /\ (exists v, RiskControl.getAssessmentResult s id = Ok v))
  /\ (forall id, nonempty (RiskControl.clientId
                             (RiskControl.read (RiskControl.assessmentResults s) id)) = true
                 <-> id ∈ RiskControl.getAllClientIds s).
Proof.
  intros Hr. apply reachable_consistent in Hr as (Hnd & Hidx & Hkey).
  unfold RiskControl.getAllClientIds. split.
  - intros id Hin. apply Hidx in Hin as [r Hl].
    destruct (Hkey id r Hl) as [Hid Hne]. split; [now exists r|].
    eexists. apply (get_stored s id r); assumption.
  - intros id. unfold RiskControl.read. rewrite Hidx.
    destruct (RiskControl.assessmentResults s !! id) as [r|] eqn:Hl.
    + destruct (Hkey id r Hl) as [Hid Hne]. rewrite Hid.
      apply nonempty_true in Hne. rewrite Hne. split; eauto.
    + cbn. split; [discriminate | intros [x H]; discriminate].
Qed.

Lemma index_entries_resolve_witness :
  exists v, RiskControl.getAssessmentResult
              (exec (mkTx 1 100 (AssessRisk 30 20000000000 "alice"))
                    (RiskControl.constructor 1)) "alice" = Ok v.
Proof.
  assert (Hr : reachable (exec (mkTx 1 100 (AssessRisk 30 20000000000 "alice"))
                               (RiskControl.constructor 1))).
  { apply reachable_exec; [apply reachable_deploy|]; reflexivity. }
  destruct (index_entries_resolve _ Hr) as [H _].
  apply (H "alice"). vm_compute. left.
Defined.

(** C5. After two successful assessments of the same identifier (with any
    transactions in between), the index holds that identifier exactly once,
    the second call added no slot, and [getAssessmentResult] returns the
    credit limit, score, approval and timestamp computed from the second
    call's arguments. *)
Theorem assess_twice_overwrites (s s1 s2 : RiskControl.state) (mid : list tx)
        (now1 a1 i1 now2 a2 i2 : Z) (cid : string) (res1 res2 : Z * Z * bool) :
  reachable s ->
  RiskControl.assessRisk now1 a1 i1 cid s = Ok (res1, s1) ->
  is_uint256 a2 -> is_uint256 i2 ->
  RiskControl.assessRisk now2 a2 i2 cid (run mid s1) = Ok (res2, s2) ->
  let r := spec_record (RiskControl.riskParameters (run mid s1)) now2 a2 i2 cid in
  occurrences cid (RiskControl.getAllClientIds s2) = 1%nat
  /\ RiskControl.getAllClientIds s2 = RiskControl.getAllClientIds (run mid s1)
  /\ RiskControl.assessmentResults s2 !! cid = Some r
  /\ RiskControl.getAssessmentResult s2 cid
     = Ok (RiskControl.creditLimit r, RiskControl.riskScore r, RiskControl.approved r, now2)
  /\ res2 = (RiskControl.creditLimit r, RiskControl.riskScore r, RiskControl.approved r).
Proof.
  intros Hr H1 [Ha2 _] [Hi2 _] H2 r.
  apply reachable_consistent in Hr.
  pose proof (assessRisk_consistent _ _ _ _ _ _ _ Hr H1) as Hc1.
  apply assessRisk_inv in H1 as (r1 & -> & _ & Hid1 & Hne & _).
  assert (Hin : cid ∈ RiskControl.allClientIds (run mid (persist r1 s))).
  { apply run_keeps_ids. unfold persist. cbn. apply upsert_id_elem. right. congruence. }
  pose proof (run_consistent mid _ Hc1) as (Hnd & _).
  remember (run mid (persist r1 s)) as sm eqn:Hsm. clear Hsm.
  rewrite assessRisk_eq in H2 by assumption.
  destruct (nonempty cid); [|discriminate].
  destruct (limit_fits _ a2 i2); [|discriminate].
  cbv zeta in H2. fold r in H2. injection H2 as <- <-.
  unfold RiskControl.getAllClientIds, persist.
  cbn [RiskControl.allClientIds RiskControl.assessmentResults].
  assert (Hcid : RiskControl.clientId r = cid) by reflexivity.
  rewrite Hcid, (upsert_id_present _ _ Hin), lookup_insert_eq.
  repeat split; try reflexivity.
  - now apply occurrences_NoDup.
  - unfold RiskControl.getAssessmentResult, RiskControl.read.
    cbn [RiskControl.assessmentResults]. rewrite lookup_insert_eq. cbv zeta.
    rewrite Hcid. apply nonempty_true in Hne. rewrite Hne. reflexivity.
Qed.

Lemma assess_twice_overwrites_witness :
  exists s2,
    RiskControl.getAllClientIds s2 = ["bob"]
    /\ RiskControl.getAssessmentResult s2 "bob" = Ok (0, 25, false, 200).
Proof.
  destruct (RiskControl.assessRisk 100 45 30000000000 "bob" (RiskControl.constructor 1))
    as [[res1 s1]|e] eqn:E1; [|discriminate E1].
  destruct (RiskControl.assessRisk 200 20 5000000000 "bob"
              (run [mkTx 1 150 (UpdateRiskParameters 3 60)] s1))
    as [[res2 s2]|e] eqn:E2;
    [|injection E1 as _ <-; discriminate E2].
  exists s2.
  assert (Hu1 : is_uint256 20) by (unfold is_uint256; rewrite MAX_UINT256_eq; lia).
  assert (Hu2 : is_uint256 5000000000) by (unfold is_uint256; rewrite MAX_UINT256_eq; lia).
  destruct (assess_twice_overwrites (RiskControl.constructor 1) s1 s2
              [mkTx 1 150 (UpdateRiskParameters 3 60)]
              100 45 30000000000 200 20 5000000000 "bob" res1 res2
              (reachable_deploy 1 eq_refl) E1 Hu1 Hu2 E2) as (_ & Hids & _ & Hget & _).
  injection E1 as _ <-. split; [exact Hids | exact Hget].
Defined.

(** ** Stored records and the parameters *)

Lemma reachable_from_reachable (s : RiskControl.state) (g : gmap string origin) :
  reachable_from s g -> reachable s.
Proof. induction 1; [now apply reachable_deploy | now apply reachable_exec]. Qed.

Lemma reachable_has_origins (s : RiskControl.state) :
  reachable s -> exists g, reachable_from s g.
Proof.
  induction 1 as [d Hd|s t Hs [g IH] Ht].
  - exists ∅. now apply reachable_from_deploy.
  - exists (origins_after t s g). now apply reachable_from_exec.
Qed.

Lemma persist_justified (p : RiskControl.RiskParameters) (income : Z)
      (r : RiskControl.AssessmentResult) (s : RiskControl.state) (g : gmap string origin) :
  records_justified s g -> record_justified p income r ->
  records_justified (persist r s) (<[RiskControl.clientId r := mkOrigin income p]> g).
Proof.
  intros Hj Hr k r0. unfold persist. cbn [RiskControl.assessmentResults].
  destruct (decide (RiskControl.clientId r = k)) as [<-|Hk].
  - rewrite !lookup_insert_eq. intros H. injection H as <-.
    eexists. split; [reflexivity | exact Hr].
  - rewrite !lookup_insert_ne by assumption. apply Hj.
Qed.

Lemma persist_origins_current (income : Z) (r : RiskControl.AssessmentResult)
      (s : RiskControl.state) (g : gmap string origin) :
  origins_current s g ->
  origins_current (persist r s)
    (<[RiskControl.clientId r := mkOrigin income (RiskControl.riskParameters s)]> g).
Proof.
  intros Hc k o. unfold persist. cbn [RiskControl.riskParameters].
  destruct (decide (RiskControl.clientId r = k)) as [<-|Hk].
  - rewrite lookup_insert_eq. intros H. now injection H as <-.
  - rewrite lookup_insert_ne by assumption. apply Hc.
Qed.

(** The loop and its bookkeeping, step by step. *)
Lemma batch_loop_origins_preserves
      (I : RiskControl.state -> gmap string origin -> Prop) (now : Z) :
  (forall a i c s g res s',
      I s g -> RiskControl.assessRisk now a i c s = Ok (res, s') ->
      I s' (<[c := mkOrigin i (RiskControl.riskParameters s)]> g)) ->
  forall ages incomes cids n s g n' s',
    I s g -> RiskControl.batch_loop now ages incomes cids n s = Ok (n', s') ->
    I s' (batch_origins now ages incomes cids s g).
Proof.
  intros Hstep. induction ages as [|a ages IH]; intros incomes cids n s g n' s' HI H.
  - cbn in H. injection H as _ <-. exact HI.
  - destruct incomes as [|i incomes]; [discriminate|].
    destruct cids as [|c cids]; [discriminate|]. cbn in H. cbn [batch_origins].
    destruct (RiskControl.assessRisk now a i c s) as [[res s1]|e] eqn:E.
    + apply (IH _ _ _ _ _ _ _ (Hstep _ _ _ _ _ _ _ HI E) H).
    + apply (IH _ _ _ _ _ _ _ HI H).
Qed.

Lemma assess_step_justified (now a i : Z) (c : string) (s s' : RiskControl.state)
      (g : gmap string origin) (res : Z * Z * bool) :
  records_justified s g -> RiskControl.assessRisk now a i c s = Ok (res, s') ->
  records_justified s' (<[c := mkOrigin i (RiskControl.riskParameters s)]> g).
Proof.
  intros Hj H. apply assessRisk_inv in H as (r & -> & _ & <- & _ & _ & _ & Hr).
  now apply persist_justified.
Qed.

Lemma assess_step_current (now a i : Z) (c : string) (s s' : RiskControl.state)
      (g : gmap string origin) (res : Z * Z * bool) :
  origins_current s g -> RiskControl.assessRisk now a i c s = Ok (res, s') ->
  origins_current s' (<[c := mkOrigin i (RiskControl.riskParameters s)]> g).
Proof.
  intros Hj H. apply assessRisk_inv in H as (r & -> & _ & <- & _).
  now apply persist_origins_current.
Qed.

Lemma exec_justified (t : tx) (s : RiskControl.state) (g : gmap string origin) :
  records_justified s g -> records_justified (exec t s) (origins_after t s g).
Proof.
  intros Hj. unfold exec, origins_after.
  destruct (tx_msg t) as [age income cid|ages incomes cids|m th|o].
  - destruct (RiskControl.assessRisk _ _ _ _ _) as [[res s']|e] eqn:E; cbn; [|assumption].
    eapply assess_step_justified; eassumption.
  - destruct (RiskControl.batchAssessRisk _ _ _ _ _) as [[n s']|e] eqn:E; cbn; [|assumption].
    apply batchAssessRisk_inv in E as (s1 & Hloop & ->).
    assert (H1 : records_justified s1 (batch_origins (tx_now t) ages incomes cids s g)).
    { eapply (batch_loop_origins_preserves records_justified); [|exact Hj|exact Hloop].
      intros a i c s0 g0 res s0'. apply assess_step_justified. }
    exact H1.
  - gated_cases t s; assumption.
  - gated_cases t s; assumption.
Qed.

Lemma exec_origins_current (t : tx) (s : RiskControl.state) (g : gmap string origin) :
  is_update (tx_msg t) = false -> origins_current s g ->
  origins_current (exec t s) (origins_after t s g).
Proof.
  intros Hu Hc. unfold exec, origins_after.
  destruct (tx_msg t) as [age income cid|ages incomes cids|m th|o]; [| |discriminate Hu|].
  - destruct (RiskControl.assessRisk _ _ _ _ _) as [[res s']|e] eqn:E; cbn; [|assumption].
    eapply assess_step_current; eassumption.
  - destruct (RiskControl.batchAssessRisk _ _ _ _ _) as [[n s']|e] eqn:E; cbn; [|assumption].
    apply batchAssessRisk_inv in E as (s1 & Hloop & ->).
    assert (H1 : origins_current s1 (batch_origins (tx_now t) ages incomes cids s g)).
    { eapply (batch_loop_origins_preserves origins_current); [|exact Hc|exact Hloop].
      intros a i c s0 g0 res s0'. apply assess_step_current. }
    exact H1.
  - gated_cases t s; assumption.
Qed.

Lemma justified_current (s : RiskControl.state) (g : gmap string origin) :
  records_justified s g -> origins_current s g -> records_current s g.
Proof.
  intros Hj Hc k r Hl. destruct (Hj k r Hl) as (o & Ho & Hr).
  exists o. split; [assumption|]. now rewrite <- (Hc k o Ho).
Qed.

Lemma assess_step_records_current (now a i : Z) (c : string) (s s' : RiskControl.state)
      (g : gmap string origin) (res : Z * Z * bool) :
  records_current s g -> RiskControl.assessRisk now a i c s = Ok (res, s') ->
  records_current s' (<[c := mkOrigin i (RiskControl.riskParameters s)]> g).
Proof.
  intros Hc H. apply assessRisk_inv in H as (r & -> & _ & <- & _ & _ & _ & Hr).
  intros k r0. unfold persist. cbn [RiskControl.assessmentResults RiskControl.riskParameters].
  destruct (decide (RiskControl.clientId r = k)) as [<-|Hk].
  - rewrite !lookup_insert_eq. intros H. injection H as <-.
    eexists. split; [reflexivity | exact Hr].
  - rewrite !lookup_insert_ne by assumption. apply Hc.
Qed.

Lemma exec_records_current (t : tx) (s : RiskControl.state) (g : gmap string origin) :
  is_update (tx_msg t) = false -> records_current s g ->
  records_current (exec t s) (origins_after t s g).
Proof.
  intros Hu Hc. unfold exec, origins_after.
  destruct (tx_msg t) as [age income cid|ages incomes cids|m th|o]; [| |discriminate Hu|].
  - destruct (RiskControl.assessRisk _ _ _ _ _) as [[res s']|e] eqn:E; cbn; [|assumption].
    eapply assess_step_records_current; eassumption.
  - destruct (RiskControl.batchAssessRisk _ _ _ _ _) as [[n s']|e] eqn:E; cbn; [|assumption].
    apply batchAssessRisk_inv in E as (s1 & Hloop & ->).
    assert (H1 : records_current s1 (batch_origins (tx_now t) ages incomes cids s g)).
    { eapply (batch_loop_origins_preserves records_current); [|exact Hc|exact Hloop].
      intros a i c s0 g0 res s0'. apply assess_step_records_current. }
    exact H1.
  - gated_cases t s; assumption.
Qed.

Lemma reachable_from_justified (s : RiskControl.state) (g : gmap string origin) :
  reachable_from s g -> records_justified s g.
Proof.
  induction 1 as [d Hd|s g t Hs IH Ht].
  - intros k r H. cbn in H. rewrite lookup_empty in H. discriminate.
  - now apply exec_justified.
Qed.

(** C2 (as the code has it). In every reachable state, every stored record
    satisfies [approved == (riskScore >= riskThreshold)], [creditLimit == 0]
    when not approved and [creditLimit == floor(income/12) * incomeMultiplier]
    otherwise, for the income of the call that wrote it and the parameters
    held during that call.  Every operation but [updateRiskParameters]
    preserves the invariant stated for the current parameters (whenever
    every stored record agrees with the current parameters before, it does
    so after); [updateRiskParameters] replaces the parameters and leaves
    the stored records as they are. *)
Theorem stored_records_justified (s : RiskControl.state) (g : gmap string origin) :
  reachable_from s g ->
  records_justified s g
  /\ (forall t, is_update (tx_msg t) = false -> records_current s g ->
        records_current (exec t s) (origins_after t s g))
  /\ (forall from now m th,
        RiskControl.assessmentResults (exec (mkTx from now (UpdateRiskParameters m th)) s)
        = RiskControl.assessmentResults s).
Proof.
  intros Hr. pose proof (reachable_from_justified s g Hr) as Hj.
  split; [exact Hj|]. split.
  - intros t Hu Hc. now apply exec_records_current.
  - intros from now m th. unfold exec. cbn [tx_msg tx_sender tx_now].
    unfold RiskControl.updateRiskParameters, RiskControl.onlyOwner.
    destruct (from =? RiskControl.owner s); reflexivity.
Qed.

Lemma stored_records_justified_witness :
  records_justified
    (exec (mkTx 1 20 (UpdateRiskParameters 2 101))
          (exec (mkTx 5 10 (AssessRisk 40 60000000000 "a")) (RiskControl.constructor 1)))
    (origins_after (mkTx 1 20 (UpdateRiskParameters 2 101))
       (exec (mkTx 5 10 (AssessRisk 40 60000000000 "a")) (RiskControl.constructor 1))
       (origins_after (mkTx 5 10 (AssessRisk 40 60000000000 "a"))
          (RiskControl.constructor 1) ∅)).
Proof.
  apply stored_records_justified.
  apply reachable_from_exec; [apply reachable_from_exec; [apply reachable_from_deploy|]|];
    reflexivity.
Defined.

(** The invariant in terms of the current parameters does not survive
    [updateRiskParameters]: a record approved with score 100 under threshold
    50 stays approved after the owner raises the threshold to 101. *)
Lemma update_breaks_current_invariant :
  let t1 := mkTx 5 10 (AssessRisk 40 60000000000 "a") in
  let t2 := mkTx 1 20 (UpdateRiskParameters 2 101) in
  let s0 := RiskControl.constructor 1 in
  let s := exec t2 (exec t1 s0) in
  let g := origins_after t2 (exec t1 s0) (origins_after t1 s0 ∅) in
  reachable_from s g
  /\ RiskControl.assessmentResults s !! "a"
     = Some (RiskControl.mkResult 10000000000 100 true "a" 10)
  /\ RiskControl.getRiskParameters s = RiskControl.mkParams 2 101
  /\ ~ records_current s g.
Proof.
  cbv zeta. split; [|split; [|split]].
  - apply reachable_from_exec; [apply reachable_from_exec; [apply reachable_from_deploy|]|];
      reflexivity.
  - vm_compute. reflexivity.
  - reflexivity.
  - intros H.
    destruct (H "a" (RiskControl.mkResult 10000000000 100 true "a" 10)) as (o & _ & Ha & _).
    + vm_compute. reflexivity.
    + vm_compute in Ha. discriminate Ha.
Qed.

(** ** The batch entry point *)

Section PersistAll.

Variable p : RiskControl.RiskParameters.
Variable now : Z.

Lemma record_of_id (it : Z * Z * string) :
  RiskControl.clientId (record_of p now it) = snd it.
Proof. destruct it as [[a i] c]. reflexivity. Qed.

Lemma persist_all_cons (it : Z * Z * string) (l : list (Z * Z * string)) (s : RiskControl.state) :
  persist_all p now (it :: l) s = persist_all p now l (persist (record_of p now it) s).
Proof. reflexivity. Qed.

Lemma persist_all_app (l1 l2 : list (Z * Z * string)) (s : RiskControl.state) :
  persist_all p now (l1 ++ l2) s = persist_all p now l2 (persist_all p now l1 s).
Proof. unfold persist_all. apply fold_left_app. Qed.

Lemma persist_all_params (l : list (Z * Z * string)) (s : RiskControl.state) :
  RiskControl.riskParameters (persist_all p now l s) = RiskControl.riskParameters s.
Proof.
  revert s. induction l as [|it l IH]; intros s; [reflexivity|].
  rewrite persist_all_cons, IH. reflexivity.
Qed.

Lemma persist_all_events (l : list (Z * Z * string)) (s : RiskControl.state) :
  RiskControl.events (persist_all p now l s)
  = RiskControl.events s ++ map (fun it => assessment_event (record_of p now it)) l.
Proof.
  revert s. induction l as [|it l IH]; intros s.
  - cbn. now rewrite app_nil_r.
  - rewrite persist_all_cons, IH. cbn. now rewrite <- app_assoc.
Qed.

Lemma persist_all_lookup_other (l : list (Z * Z * string)) (s : RiskControl.state) (k : string) :
  k ∉ map snd l ->
  RiskControl.assessmentResults (persist_all p now l s) !! k
  = RiskControl.assessmentResults s !! k.
Proof.
  revert s. induction l as [|it l IH]; intros s Hk; [reflexivity|].
  cbn in Hk. apply not_elem_of_cons in Hk as [Hne Hk].
  rewrite persist_all_cons, IH by assumption.
  unfold persist. cbn. rewrite record_of_id. now rewrite lookup_insert_ne by congruence.
Qed.

Lemma persist_all_lookup_last (l1 l2 : list (Z * Z * string)) (it : Z * Z * string) (s : RiskControl.state) :
  snd it ∉ map snd l2 ->
  RiskControl.assessmentResults (persist_all p now (l1 ++ it :: l2) s) !! snd it
  = Some (record_of p now it).
Proof.
  intros Hk. rewrite persist_all_app, persist_all_cons.
  rewrite persist_all_lookup_other by assumption.
  unfold persist. cbn. rewrite record_of_id. apply lookup_insert_eq.
Qed.

Lemma persist_keeps_ids (r : RiskControl.AssessmentResult) (s : RiskControl.state)
      (k : string) :
  k ∈ RiskControl.allClientIds s -> k ∈ RiskControl.allClientIds (persist r s).
Proof. intros H. unfold persist. cbn. apply upsert_id_elem. now left. Qed.

Lemma persist_all_keeps_ids (l : list (Z * Z * string)) (s : RiskControl.state) (k : string) :
  k ∈ RiskControl.allClientIds s -> k ∈ RiskControl.allClientIds (persist_all p now l s).
Proof.
  revert s. induction l as [|it l IH]; intros s H; [assumption|].
  rewrite persist_all_cons. apply IH. now apply persist_keeps_ids.
Qed.

Lemma persist_all_ids (l : list (Z * Z * string)) (s : RiskControl.state) (it : Z * Z * string) :
  it ∈ l -> snd it ∈ RiskControl.allClientIds (persist_all p now l s).
Proof.
  revert s. induction l as [|x l IH]; intros s H; [inversion H|].
  rewrite persist_all_cons. apply elem_of_cons in H as [->|H].
  - apply persist_all_keeps_ids. unfold persist. cbn. apply upsert_id_elem. right.
    now rewrite record_of_id.
  - now apply IH.
Qed.

End PersistAll.

(** The loop, on arrays of equal length: the records on which an assessment
    succeeds are persisted in order and counted, the others are skipped. *)
Lemma batch_loop_eq (now : Z) (ages incomes : list Z) (cids : list string) :
  forall (n : Z) (s : RiskControl.state),
    length ages = length incomes -> length incomes = length cids ->
    forallb uint256b ages = true -> forallb uint256b incomes = true ->
    let p := RiskControl.riskParameters s in
    let done := List.filter (valid_record p) (zip3 ages incomes cids) in
    RiskControl.batch_loop now ages incomes cids n s
    = Ok (n + Z.of_nat (length done), persist_all p now done s).
Proof.
  revert incomes cids. induction ages as [|a ages IH]; intros incomes cids n s Hl1 Hl2 Ha Hi.
  - cbn. now rewrite Z.add_0_r.
  - destruct incomes as [|i incomes]; [discriminate|].
    destruct cids as [|c cids]; [discriminate|].
    cbn in Hl1, Hl2, Ha, Hi. apply andb_true_iff in Ha as [Ha Has].
    apply andb_true_iff in Hi as [Hi His].
    apply uint256b_spec in Ha as [Ha _]. apply uint256b_spec in Hi as [Hi _].
    injection Hl1 as Hl1. injection Hl2 as Hl2.
    cbn [RiskControl.batch_loop zip3 combine List.filter valid_record].
    rewrite assessRisk_eq by assumption.
    fold (zip3 ages incomes cids).
    destruct (nonempty c); cbn [andb].
    + destruct (limit_fits (RiskControl.riskParameters s) a i); cbv zeta.
      * rewrite IH by assumption. cbv zeta.
        assert (Hp : RiskControl.riskParameters
                       (persist (spec_record (RiskControl.riskParameters s) now a i c) s)
                     = RiskControl.riskParameters s) by reflexivity.
        rewrite Hp, persist_all_cons. cbn [length record_of]. f_equal. f_equal. lia.
      * now rewrite IH by assumption.
    + now rewrite IH by assumption.
Qed.

Lemma filter_one_skipped (p : RiskControl.RiskParameters)
      (pre post : list (Z * Z * string)) (a0 i0 : Z) :
  Forall (fun it => valid_record p it = true) (pre ++ post) ->
  List.filter (valid_record p) (pre ++ (a0, i0, "") :: post) = pre ++ post.
Proof.
  intros H. apply Forall_app in H as [Hpre Hpost].
  assert (Hall : forall l, Forall (fun it => valid_record p it = true) l ->
                           List.filter (valid_record p) l = l).
  { induction 1 as [|x l Hx Hl IH]; cbn; [reflexivity|]. now rewrite Hx, IH. }
  rewrite List.filter_app. cbn. now rewrite !Hall.
Qed.

Lemma zip3_length (ages incomes : list Z) (cids : list string) :
  length ages = length incomes -> length incomes = length cids ->
  length (zip3 ages incomes cids) = length ages.
Proof.
  intros H1 H2. unfold zip3. rewrite !length_combine. lia.
Qed.

Lemma last_occurrence (l : list (Z * Z * string)) (k : string) :
  k ∈ map snd l ->
  exists l1 it l2, l = l1 ++ it :: l2 /\ snd it = k /\ k ∉ map snd l2.
Proof.
  induction l as [|x l IH]; intros H; [inversion H|].
  destruct (decide (k ∈ map snd l)) as [Hin|Hni].
  - destruct (IH Hin) as (l1 & it & l2 & -> & Hk & Hl2).
    exists (x :: l1), it, l2. now repeat split.
  - cbn in H. apply elem_of_cons in H as [H|H]; [|contradiction].
    exists [], x, l. now repeat split.
Qed.

Lemma valid_record_id (p : RiskControl.RiskParameters) (it : Z * Z * string) :
  valid_record p it = true -> snd it <> "".
Proof.
  destruct it as [[a i] c]. cbn. intros H. apply andb_true_iff in H as [H _].
  now apply nonempty_true.
Qed.

(** C6. On arrays of equal length holding [N] records of which one has an
    empty identifier and the others are valid, [batchAssessRisk] returns
    [N - 1]; the final ledger is the initial one with the valid records
    upserted in the order given; one assessment event per valid record is
    emitted in that order, followed by the batch event; every valid record's
    identifier is in the index and resolves; a valid record not followed by
    another for the same identifier is stored as computed; and nothing is
    stored under the empty identifier. *)
Theorem batch_skips_empty_id (now : Z) (ages incomes : list Z) (cids : list string)
        (s : RiskControl.state) (pre post : list (Z * Z * string)) (a0 i0 : Z) :
  length ages = length incomes -> length incomes = length cids ->
  forallb uint256b ages = true -> forallb uint256b incomes = true ->
  zip3 ages incomes cids = pre ++ (a0, i0, "") :: post ->
  Forall (fun it => valid_record (RiskControl.riskParameters s) it = true) (pre ++ post) ->
  let p := RiskControl.riskParameters s in
  let N := Z.of_nat (length ages) in
  exists s',
    RiskControl.batchAssessRisk now ages incomes cids s = Ok (N - 1, s')
    /\ RiskControl.assessmentResults s'
       = RiskControl.assessmentResults (persist_all p now (pre ++ post) s)
    /\ RiskControl.allClientIds s'
       = RiskControl.allClientIds (persist_all p now (pre ++ post) s)
    /\ RiskControl.events s'
       = RiskControl.events s
         ++ map (fun it => assessment_event (record_of p now it)) (pre ++ post)
         ++ [RiskControl.BatchAssessmentPerformed (N - 1) now]
    /\ (forall it, it ∈ pre ++ post ->
          snd it ∈ RiskControl.getAllClientIds s'
          /\ exists v, RiskControl.getAssessmentResult s' (snd it) = Ok v)
    /\ (forall l1 it l2, pre ++ post = l1 ++ it :: l2 -> snd it ∉ map snd l2 ->
          RiskControl.assessmentResults s' !! snd it = Some (record_of p now it))
    /\ RiskControl.assessmentResults s' !! "" = RiskControl.assessmentResults s !! "".
Proof.
  intros Hl1 Hl2 Ha Hi Hzip Hvalid p N.
  pose proof (batch_loop_eq now ages incomes cids 0 s Hl1 Hl2 Ha Hi) as Hloop.
  cbv zeta in Hloop. fold p in Hloop.
  rewrite Hzip, (filter_one_skipped p pre post a0 i0 Hvalid) in Hloop.
  assert (HN : 0 + Z.of_nat (length (pre ++ post)) = N - 1).
  { pose proof (zip3_length ages incomes cids Hl1 Hl2) as Hlen.
    rewrite Hzip in Hlen. rewrite length_app in Hlen. cbn [length] in Hlen.
    rewrite length_app. unfold N. lia. }
  rewrite HN in Hloop.
  set (s1 := persist_all p now (pre ++ post) s) in *.
  exists (RiskControl.mkState (RiskControl.owner s1) (RiskControl.riskParameters s1)
            (RiskControl.assessmentResults s1) (RiskControl.allClientIds s1)
            (RiskControl.events s1 ++ [RiskControl.BatchAssessmentPerformed (N - 1) now])).
  cbn [RiskControl.assessmentResults RiskControl.allClientIds RiskControl.events
       RiskControl.getAllClientIds].
  assert (Hlast : forall l1 it l2, pre ++ post = l1 ++ it :: l2 -> snd it ∉ map snd l2 ->
                    RiskControl.assessmentResults s1 !! snd it = Some (record_of p now it)).
  { intros l1 it l2 Hsplit Hni. unfold s1. rewrite Hsplit.
    now apply persist_all_lookup_last. }
  split; [|split; [reflexivity|split; [reflexivity|split; [|split; [|split]]]]].
  - unfold RiskControl.batchAssessRisk.
    assert (Hcheck := proj2 (lengths_check ages incomes cids) (conj Hl1 Hl2)).
    rewrite Hcheck.
    cbn [require bind]. rewrite Hloop. reflexivity.
  - unfold s1. rewrite persist_all_events. now rewrite <- app_assoc.
  - intros it Hin. split; [unfold RiskControl.getAllClientIds; now apply persist_all_ids|].
    assert (Hk : snd it ∈ map snd (pre ++ post)) by (now apply list_elem_of_fmap_2).
    apply last_occurrence in Hk as (l1 & it' & l2 & Hsplit & Hid & Hni).
    rewrite <- Hid in Hni. pose proof (Hlast l1 it' l2 Hsplit Hni) as Hl.
    rewrite Hid in Hl. eexists.
    apply (get_stored _ (snd it) (record_of p now it')).
    + exact Hl.
    + now rewrite record_of_id.
    + rewrite Forall_forall in Hvalid. apply (valid_record_id p). now apply Hvalid.
  - exact Hlast.
  - unfold s1. apply persist_all_lookup_other. intros Hin.
    apply list_elem_of_fmap in Hin as (it & Hid & Hin).
    rewrite Forall_forall in Hvalid. apply (valid_record_id p it); [now apply Hvalid|].
    now symmetry.
Qed.

Lemma batch_skips_empty_id_witness :
  exists s',
    RiskControl.batchAssessRisk 50 [30; 99; 45] [70000000000; 1; 10000000000]
                                ["a"; ""; "b"] (RiskControl.constructor 1)
    = Ok (2, s')
    /\ RiskControl.getAllClientIds s' = ["a"; "b"].
Proof.
  destruct (batch_skips_empty_id 50 [30; 99; 45] [70000000000; 1; 10000000000]
              ["a"; ""; "b"] (RiskControl.constructor 1)
              [(30, 70000000000, "a")] [(45, 10000000000, "b")] 99 1)
    as (s' & Hret & _ & Hids & _); try reflexivity.
  - repeat constructor.
  - exists s'. split; [exact Hret | exact Hids].
Defined.

(** ** The confidential path against the plaintext path *)

Lemma wrap32_small (x : Z) : is_uint32 x -> FHE.wrap32 x = x.
Proof. intros H. unfold FHE.wrap32. now apply Z.mod_small. Qed.

Lemma two_32_eq : 2 ^ 32 = 4294967296.
Proof. reflexivity. Qed.

(** Decrypted, the encrypted score is the specification's score. *)
Lemma calculateEncryptedRiskScore_dec (age income : Z) :
  is_uint32 age -> is_uint32 income ->
  FHE.dec (FHERC.calculateEncryptedRiskScore (FHE.Enc age) (FHE.Enc income))
  = spec_score age income.
Proof.
  intros Ha Hi. unfold is_uint32 in *. rewrite two_32_eq in *.
  pose proof (spec_score_range age income (proj1 Ha) (proj1 Hi)) as Hr.
  unfold FHERC.calculateEncryptedRiskScore, FHE.add, FHE.mul, FHE.div, FHE.gt, FHE.cmux,
    FHE.asEuint32.
  cbn [FHE.dec FHE.decb].
  change (FHE.wrap32 40) with 40. change (FHE.wrap32 60) with 60.
  change (FHE.wrap32 1000) with 1000. change (FHE.wrap32 (10 ^ 6)) with (10 ^ 6).
  change (10 ^ 6 =? 0) with false. change (1000 =? 0) with false.
  change (40 =? 0) with false. cbv iota.
  unfold spec_score, ageFactor, incomeFactor in *.
  assert (Hage : FHE.dec (if 40 <? age then FHE.Enc 40
                          else FHE.Enc (FHE.wrap32 (age * 40) / 40)) = Z.min age 40).
  { destruct (40 <? age) eqn:E; cbn [FHE.dec].
    - apply Z.ltb_lt in E. lia.
    - apply Z.ltb_ge in E. rewrite wrap32_small
        by (unfold is_uint32; rewrite two_32_eq; lia).
      rewrite Z.div_mul by lia. lia. }
  assert (Hinc : FHE.dec (if 60 <? income / 10 ^ 6 / 1000 then FHE.Enc 60
                          else FHE.Enc (income / 10 ^ 6 / 1000))
                 = Z.min (income / 10 ^ 6 / 1000) 60).
  { destruct (60 <? income / 10 ^ 6 / 1000) eqn:E; cbn [FHE.dec].
    - apply Z.ltb_lt in E. lia.
    - apply Z.ltb_ge in E. lia. }
  rewrite Hage, Hinc. apply wrap32_small. unfold is_uint32. rewrite two_32_eq. lia.
Qed.

Lemma clientIdExists_from_same (ids : list string) (c : string) :
  FHERC.clientIdExists_from ids c = RiskControl.clientIdExists_from ids c.
Proof. induction ids as [|x ids IH]; cbn; [reflexivity|]. now rewrite IH. Qed.

(** C1 (as the code has it). For 32-bit age, income and parameters, a
    score different from the threshold and, when the client is approved, a
    product [(income / 12) * incomeMultiplier] below [2^32], the
    confidential assessment, decrypted, is the plaintext assessment: same
    failure on an empty identifier, same credit limit, score and approval,
    and the same stored record, index and event. *)
Theorem confidential_matches_plain (now age income : Z) (cid : string) (sf : FHERC.state) :
  let m := FHE.dec (FHERC.incomeMultiplier (FHERC.riskParameters sf)) in
  let t := FHE.dec (FHERC.riskThreshold (FHERC.riskParameters sf)) in
  is_uint32 age -> is_uint32 income -> is_uint32 m -> is_uint32 t ->
  spec_score age income <> t ->
  (t < spec_score age income -> (income / 12) * m < 2 ^ 32) ->
  paths_agree now age income cid sf.
Proof.
  intros m t Ha Hi Hm Ht Hne Hprod. unfold paths_agree.
  rewrite assessRisk_eq by (unfold is_uint32 in *; lia).
  unfold FHERC.assessRiskEncrypted.
  destruct (nonempty cid); cbn [require bind map_result]; [|reflexivity].
  assert (Hok : FHE.decb (FHE.gt (FHERC.calculateEncryptedRiskScore (FHE.Enc age)
                                     (FHE.Enc income))
                                 (FHERC.riskThreshold (FHERC.riskParameters sf)))
                = spec_approved (decrypt_params (FHERC.riskParameters sf))
                                (spec_score age income)).
  { unfold FHE.gt, spec_approved. cbn [FHE.decb decrypt_params RiskControl.riskThreshold].
    rewrite calculateEncryptedRiskScore_dec by assumption. fold t.
    destruct (t <? spec_score age income) eqn:E1;
      destruct (t <=? spec_score age income) eqn:E2; try reflexivity.
    - apply Z.ltb_lt in E1. apply Z.leb_gt in E2. lia.
    - apply Z.ltb_ge in E1. apply Z.leb_le in E2. lia. }
  assert (Hlim : FHE.dec
                   (FHE.cmux
                      (FHE.gt (FHERC.calculateEncryptedRiskScore (FHE.Enc age)
                                 (FHE.Enc income))
                              (FHERC.riskThreshold (FHERC.riskParameters sf)))
                      (FHE.mul (FHE.div (FHE.Enc income) (FHE.asEuint32 12))
                               (FHERC.incomeMultiplier (FHERC.riskParameters sf)))
                      (FHE.asEuint32 0))
                 = spec_limit (decrypt_params (FHERC.riskParameters sf)) income
                     (spec_approved (decrypt_params (FHERC.riskParameters sf))
                                    (spec_score age income))).
  { unfold FHE.cmux. rewrite Hok. unfold spec_limit, spec_approved.
    cbn [decrypt_params RiskControl.riskThreshold RiskControl.incomeMultiplier].
    fold t m. destruct (t <=? spec_score age income) eqn:E.
    - apply Z.leb_le in E. unfold FHE.mul, FHE.div, FHE.asEuint32. cbn [FHE.dec].
      change (FHE.wrap32 12 =? 0) with false. cbv iota. change (FHE.wrap32 12) with 12.
      fold m. apply wrap32_small. unfold is_uint32 in *. split; [|lia].
      apply Z.mul_nonneg_nonneg; [apply Z.div_pos|]; lia.
    - reflexivity. }
  assert (Hfit : limit_fits (decrypt_params (FHERC.riskParameters sf)) age income = true).
  { unfold limit_fits, spec_approved.
    cbn [decrypt_params RiskControl.riskThreshold RiskControl.incomeMultiplier].
    fold t m. destruct (t <=? spec_score age income) eqn:E; [|reflexivity].
    apply Z.leb_le in E. apply Z.leb_le. rewrite MAX_UINT256_eq.
    rewrite two_32_eq in Hprod. lia. }
  cbn [decrypt_state RiskControl.riskParameters]. rewrite Hfit. cbv zeta.
  unfold decrypt_outcome, spec_record. cbn [RiskControl.creditLimit RiskControl.riskScore
    RiskControl.approved]. rewrite Hok, Hlim.
  rewrite calculateEncryptedRiskScore_dec by assumption.
  f_equal. f_equal. unfold decrypt_state, persist, upsert_id, assessment_event.
  cbn [FHERC.owner FHERC.riskParameters FHERC.encryptedAssessments FHERC.allClientIds
       FHERC.events RiskControl.owner RiskControl.riskParameters
       RiskControl.assessmentResults RiskControl.allClientIds RiskControl.events
       RiskControl.clientId RiskControl.creditLimit RiskControl.riskScore
       RiskControl.approved RiskControl.timestamp].
  unfold FHERC.clientIdExists. rewrite clientIdExists_from_same.
  rewrite fmap_insert, map_app. unfold decrypt_record at 1.
  cbn [map decrypt_event FHE.sealoutput
    FHE.unseal FHERC.creditLimit FHERC.riskScore FHERC.approved FHERC.clientId
    FHERC.timestamp].
  rewrite Hok, Hlim. rewrite calculateEncryptedRiskScore_dec by assumption.
  reflexivity.
Qed.

Lemma confidential_matches_plain_witness :
  paths_agree 9 45 4000000000 "c"
    (FHERC.mkState 1 (FHERC.mkParams (FHE.Enc 2) (FHE.Enc 40)) ∅ []
                   [FHERC.ParametersUpdated 5]).
Proof.
  apply confidential_matches_plain; cbn; unfold is_uint32; rewrite ?two_32_eq;
    try lia.
  - vm_compute. discriminate.
  - intros _. reflexivity.
Defined.

(** The two paths part at a score equal to the threshold (the plaintext
    contract approves with [>=], the confidential one with [gt]) and where
    the 32-bit product of the credit limit wraps around. *)
Lemma paths_disagree :
  let at_threshold :=
    FHERC.mkState 1 (FHERC.mkParams (FHE.Enc 2) (FHE.Enc 40)) ∅ []
                  [FHERC.ParametersUpdated 5] in
  let large_multiplier :=
    FHERC.mkState 1 (FHERC.mkParams (FHE.Enc 5000) (FHE.Enc 0)) ∅ []
                  [FHERC.ParametersUpdated 5] in
  FHERC.updateRiskParametersEncrypted 1 5 (FHE.Enc 2) (FHE.Enc 40) (FHERC.constructor 1)
  = Ok (tt, at_threshold)
  /\ ~ paths_agree 9 40 12000000 "c" at_threshold
  /\ (exists s1 s2,
        FHERC.assessRiskEncrypted 9 (FHE.Enc 40) (FHE.Enc 12000000) "c" at_threshold
        = Ok ((FHE.Enc 0, FHE.Enc 40, FHE.EncBool false), s1)
        /\ RiskControl.assessRisk 9 40 12000000 "c" (decrypt_state at_threshold)
           = Ok ((2000000, 40, true), s2))
  /\ FHERC.updateRiskParametersEncrypted 1 5 (FHE.Enc 5000) (FHE.Enc 0)
       (FHERC.constructor 1)
     = Ok (tt, large_multiplier)
  /\ ~ paths_agree 9 41 4000000000 "c" large_multiplier
  /\ (exists s1 s2,
        FHERC.assessRiskEncrypted 9 (FHE.Enc 41) (FHE.Enc 4000000000) "c" large_multiplier
        = Ok ((FHE.Enc 219354152, FHE.Enc 44, FHE.EncBool true), s1)
        /\ RiskControl.assessRisk 9 41 4000000000 "c" (decrypt_state large_multiplier)
           = Ok ((1666666665000, 44, true), s2)).
Proof.
  pose (approval := fun r : result ((Z * Z * bool) * RiskControl.state) =>
                      match r with Ok ((_, _, ok), _) => ok | Err _ => false end).
  pose (limit := fun r : result ((Z * Z * bool) * RiskControl.state) =>
                   match r with Ok ((l, _, _), _) => l | Err _ => 0 end).
  cbv zeta. repeat split.
  - intros H. unfold paths_agree in H. apply (f_equal approval) in H.
    vm_compute in H. discriminate H.
  - eexists. eexists. split; reflexivity.
  - intros H. unfold paths_agree in H. apply (f_equal limit) in H.
    vm_compute in H. discriminate H.
  - eexists. eexists. split; reflexivity.
Qed.

(** ** Further properties of the plaintext contract *)

(** X1. For every [uint256] age and income and any parameters, [assessRisk]
    has exactly three outcomes: the identifier's revert when [cid] is empty;
    an arithmetic panic when the client is approved and
    [(income / 12) * incomeMultiplier] exceeds [uint256]; and otherwise the
    triple of the specification's formulas. *)
Theorem assessRisk_outcome (now age income : Z) (cid : string) (s : RiskControl.state) :
  is_uint256 age -> is_uint256 income ->
  let p := RiskControl.riskParameters s in
  let score := spec_score age income in
  let ok := spec_approved p score in
  (cid = "" -> RiskControl.assessRisk now age income cid s = Err InvalidInput)
  /\ (cid <> "" -> ok = true -> MAX_UINT256 < (income / 12) * RiskControl.incomeMultiplier p ->
      RiskControl.assessRisk now age income cid s = Err Panic)
  /\ (cid <> "" -> (ok = true -> (income / 12) * RiskControl.incomeMultiplier p <= MAX_UINT256) ->
      exists s', RiskControl.assessRisk now age income cid s
                 = Ok ((spec_limit p income ok, score, ok), s')).
Proof.
  intros [Ha _] [Hi _] p score ok. rewrite assessRisk_eq by assumption.
  fold p. unfold limit_fits. fold score ok. repeat split.
  - intros ->. reflexivity.
  - intros Hne Hok Hbig. apply nonempty_true in Hne. rewrite Hne, Hok.
    apply Z.leb_gt in Hbig. now rewrite Hbig.
  - intros Hne Hfit. apply nonempty_true in Hne. rewrite Hne.
    destruct ok eqn:Hok.
    + specialize (Hfit eq_refl). apply Z.leb_le in Hfit. rewrite Hfit.
      eexists. unfold spec_record. fold score. fold p. unfold ok in Hok.
      rewrite Hok. reflexivity.
    + eexists. unfold spec_record. fold score. fold p. unfold ok in Hok.
      rewrite Hok. reflexivity.
Qed.

Lemma assessRisk_outcome_witness :
  RiskControl.assessRisk 3 30 24
    "c" (RiskControl.mkState 1 (RiskControl.mkParams MAX_UINT256 0) ∅ [] [])
  = Err Panic.
Proof.
  assert (Hu1 : is_uint256 30) by (unfold is_uint256; rewrite MAX_UINT256_eq; lia).
  assert (Hu2 : is_uint256 24) by (unfold is_uint256; rewrite MAX_UINT256_eq; lia).
  destruct (assessRisk_outcome 3 30 24 "c"
              (RiskControl.mkState 1 (RiskControl.mkParams MAX_UINT256 0) ∅ [] []) Hu1 Hu2)
    as (_ & H & _).
  apply H; [discriminate | reflexivity | vm_compute; reflexivity].
Defined.

(** X2. A successful [assessRisk] changes nothing but the record of its own
    identifier: owner, parameters and every other record stay, the index is
    unchanged for a known identifier and gains the identifier at its end
    (the count growing by one) for a new one, and exactly one event carrying
    the returned values is appended. *)
Theorem assessRisk_frame (now age income : Z) (cid : string) (s s' : RiskControl.state)
        (res : Z * Z * bool) :
  RiskControl.assessRisk now age income cid s = Ok (res, s') ->
  RiskControl.getOwner s' = RiskControl.getOwner s
  /\ RiskControl.getRiskParameters s' = RiskControl.getRiskParameters s
  /\ (forall k, k <> cid ->
        RiskControl.assessmentResults s' !! k = RiskControl.assessmentResults s !! k)
  /\ (cid ∈ RiskControl.getAllClientIds s ->
        RiskControl.getAllClientIds s' = RiskControl.getAllClientIds s)
  /\ (cid ∉ RiskControl.getAllClientIds s ->
        RiskControl.getAllClientIds s' = RiskControl.getAllClientIds s ++ [cid]
        /\ RiskControl.getAssessmentCount s' = RiskControl.getAssessmentCount s + 1)
  /\ (exists limit score ok,
        res = (limit, score, ok)
        /\ RiskControl.events s'
           = RiskControl.events s
             ++ [RiskControl.AssessmentPerformed cid limit score ok now]).
Proof.
  intros H. apply assessRisk_inv in H as (r & -> & -> & Hid & Hne & Hts & _).
  unfold RiskControl.getOwner, RiskControl.getRiskParameters, RiskControl.getAllClientIds,
    RiskControl.getAssessmentCount, persist, assessment_event.
  cbn [RiskControl.owner RiskControl.riskParameters RiskControl.assessmentResults
       RiskControl.allClientIds RiskControl.events].
  rewrite Hid, Hts. repeat split.
  - intros k Hk. now rewrite lookup_insert_ne by congruence.
  - intros Hin. now apply upsert_id_present.
  - unfold upsert_id. destruct (RiskControl.clientIdExists_from _ cid) eqn:E; [|reflexivity].
    apply clientIdExists_from_spec in E. contradiction.
  - unfold upsert_id. destruct (RiskControl.clientIdExists_from _ cid) eqn:E.
    + apply clientIdExists_from_spec in E. contradiction.
    + rewrite length_app. cbn [length]. lia.
  - eexists _, _, _. split; reflexivity.
Qed.

Lemma assessRisk_frame_witness :
  exists s', RiskControl.getAllClientIds s' = ["zed"]
             /\ RiskControl.getAssessmentCount s' = 1.
Proof.
  destruct (RiskControl.assessRisk 8 50 70000000000 "zed" (RiskControl.constructor 1))
    as [[res s']|e] eqn:E; [|discriminate E].
  exists s'.
  destruct (assessRisk_frame 8 50 70000000000 "zed" (RiskControl.constructor 1) s' res E)
    as (_ & _ & _ & _ & H & _).
  destruct H as [H1 H2]; [intros Hin; inversion Hin|]. split; assumption.
Defined.

(** X3. In every reachable state, [getAssessmentResult] reverts with the
    identifier's message on the empty identifier and with the not-found
    message on an identifier that is not in the index; it returns exactly
    for the identifiers in the index. *)
Theorem getAssessmentResult_unknown (s : RiskControl.state) (id : string) :
  reachable s ->
  (id = "" -> RiskControl.getAssessmentResult s id = Err InvalidInput)
  /\ (id <> "" -> id ∉ RiskControl.getAllClientIds s ->
      RiskControl.getAssessmentResult s id = Err NotFound)
  /\ ((exists v, RiskControl.getAssessmentResult s id = Ok v)
      <-> id ∈ RiskControl.getAllClientIds s).
Proof.
  intros Hr. apply reachable_consistent in Hr as (Hnd & Hidx & Hkey).
  unfold RiskControl.getAllClientIds.
  assert (Hmiss : id <> "" -> id ∉ RiskControl.allClientIds s ->
                  RiskControl.getAssessmentResult s id = Err NotFound).
  { intros Hne Hni. unfold RiskControl.getAssessmentResult, RiskControl.read.
    apply nonempty_true in Hne. rewrite Hne. cbn [require bind].
    destruct (RiskControl.assessmentResults s !! id) as [r|] eqn:Hl.
    - exfalso. apply Hni, Hidx. eauto.
    - reflexivity. }
  split; [intros ->; reflexivity|]. split; [exact Hmiss|]. split.
  - intros [v Hv]. destruct (decide (id ∈ RiskControl.allClientIds s)) as [Hin|Hni];
      [assumption|].
    destruct (decide (id = "")) as [->|Hne]; [discriminate Hv|].
    rewrite (Hmiss Hne Hni) in Hv. discriminate Hv.
  - intros Hin. apply Hidx in Hin as [r Hl]. destruct (Hkey id r Hl) as [Hid Hne].
    eexists. apply (get_stored s id r); assumption.
Qed.

Lemma getAssessmentResult_unknown_witness :
  RiskControl.getAssessmentResult
    (exec (mkTx 1 100 (AssessRisk 30 20000000000 "alice")) (RiskControl.constructor 1))
    "bob" = Err NotFound.
Proof.
  assert (Hr : reachable (exec (mkTx 1 100 (AssessRisk 30 20000000000 "alice"))
                               (RiskControl.constructor 1))).
  { apply reachable_exec; [apply reachable_deploy|]; reflexivity. }
  destruct (getAssessmentResult_unknown _ "bob" Hr) as (_ & H & _).
  apply H; [discriminate|]. vm_compute. intros Hin.
  apply list_elem_of_singleton in Hin. discriminate Hin.
Defined.

(** X4. In every reachable state, [getBatchAssessmentResults] never reverts and
    answers position by position: the stored record (whose [clientId] is the
    identifier asked for) where the identifier is in the index, the all-zero
    record with the empty [clientId] where it is not. *)
Theorem getBatchAssessmentResults_positional (s : RiskControl.state) (cids : list string) :
  reachable s ->
  length (RiskControl.getBatchAssessmentResults s cids) = length cids
  /\ (forall (i : nat) (id : string), cids !! i = Some id ->
        (id ∈ RiskControl.getAllClientIds s ->
           exists r, RiskControl.assessmentResults s !! id = Some r
                     /\ RiskControl.getBatchAssessmentResults s cids !! i = Some r
                     /\ RiskControl.clientId r = id)
        /\ (id ∉ RiskControl.getAllClientIds s ->
              RiskControl.getBatchAssessmentResults s cids !! i
              = Some RiskControl.zero_result)).
Proof.
  intros Hr. apply reachable_consistent in Hr as (Hnd & Hidx & Hkey).
  unfold RiskControl.getBatchAssessmentResults, RiskControl.getAllClientIds.
  split; [apply length_map|]. intros i id Hi.
  assert (Hget : map (RiskControl.read (RiskControl.assessmentResults s)) cids !! i
                 = Some (RiskControl.read (RiskControl.assessmentResults s) id)).
  { change (map ?f ?l) with (f <$> l). rewrite list_lookup_fmap, Hi. reflexivity. }
  rewrite Hget. unfold RiskControl.read. split.
  - intros Hin. apply Hidx in Hin as [r Hl]. exists r. rewrite Hl.
    destruct (Hkey id r Hl) as [Hid _]. auto.
  - intros Hni. destruct (RiskControl.assessmentResults s !! id) as [r|] eqn:Hl;
      [|reflexivity].
    exfalso. apply Hni, Hidx. eauto.
Qed.

Lemma getBatchAssessmentResults_positional_witness :
  length (RiskControl.getBatchAssessmentResults
            (exec (mkTx 1 100 (AssessRisk 30 20000000000 "alice"))
                  (RiskControl.constructor 1))
            ["bob"; "alice"]) = 2%nat.
Proof.
  assert (Hr : reachable (exec (mkTx 1 100 (AssessRisk 30 20000000000 "alice"))
                               (RiskControl.constructor 1))).
  { apply reachable_exec; [apply reachable_deploy|]; reflexivity. }
  destruct (getBatchAssessmentResults_positional _ ["bob"; "alice"] Hr) as [H _].
  exact H.
Defined.

(** X5. In every reachable state, [getAssessmentCount] is the number of
    distinct clients holding a record: the size of the mapping. *)
Theorem getAssessmentCount_size (s : RiskControl.state) :
  reachable s ->
  RiskControl.getAssessmentCount s = Z.of_nat (size (RiskControl.assessmentResults s)).
Proof.
  intros Hr. apply reachable_consistent in Hr as (Hnd & Hidx & _).
  unfold RiskControl.getAssessmentCount. f_equal.
  rewrite <- (size_dom (D := gset string)).
  assert (Hdom : dom (RiskControl.assessmentResults s)
                 = list_to_set (C := gset string) (RiskControl.allClientIds s)).
  { apply set_eq. intros k. rewrite elem_of_dom, elem_of_list_to_set. symmetry. apply Hidx. }
  rewrite Hdom. symmetry. now apply size_list_to_set.
Qed.

Lemma getAssessmentCount_size_witness :
  RiskControl.getAssessmentCount
    (exec (mkTx 1 100 (AssessRisk 30 20000000000 "alice")) (RiskControl.constructor 1))
  = Z.of_nat (size (RiskControl.assessmentResults
                      (exec (mkTx 1 100 (AssessRisk 30 20000000000 "alice"))
                            (RiskControl.constructor 1)))).
Proof.
  apply getAssessmentCount_size.
  apply reachable_exec; [apply reachable_deploy|]; reflexivity.
Defined.

Lemma upsert_id_prefix (ids : list string) (c : string) : ids `prefix_of` upsert_id ids c.
Proof.
  unfold upsert_id. destruct (RiskControl.clientIdExists_from ids c); [reflexivity|].
  now apply prefix_app_r.
Qed.

(** What a state keeps of an earlier one: the index and the event log as
    prefixes, and a record under every key that had one. *)
Lemma extends_assess (s0 : RiskControl.state) (now a i : Z) (c : string)
      (s s' : RiskControl.state) (res : Z * Z * bool) :
  (RiskControl.allClientIds s0 `prefix_of` RiskControl.allClientIds s
   /\ RiskControl.events s0 `prefix_of` RiskControl.events s
   /\ forall k, is_Some (RiskControl.assessmentResults s0 !! k) ->
                is_Some (RiskControl.assessmentResults s !! k)) ->
  RiskControl.assessRisk now a i c s = Ok (res, s') ->
  RiskControl.allClientIds s0 `prefix_of` RiskControl.allClientIds s'
  /\ RiskControl.events s0 `prefix_of` RiskControl.events s'
  /\ forall k, is_Some (RiskControl.assessmentResults s0 !! k) ->
               is_Some (RiskControl.assessmentResults s' !! k).
Proof.
  intros (Hids & Hev & Hrec) H. apply assessRisk_inv in H as (r & -> & _).
  unfold persist. cbn. split; [|split].
  - etransitivity; [exact Hids | apply upsert_id_prefix].
  - now apply prefix_app_r.
  - intros k Hk. destruct (decide (RiskControl.clientId r = k)) as [<-|Hne].
    + rewrite lookup_insert_eq. eauto.
    + rewrite lookup_insert_ne by assumption. now apply Hrec.
Qed.

(** X6. No transaction removes anything: the index and the event log of the
    state before are prefixes of those after, and every key that had a
    record still has one. *)
Theorem history_append_only (t : tx) (s : RiskControl.state) :
  RiskControl.getAllClientIds s `prefix_of` RiskControl.getAllClientIds (exec t s)
  /\ RiskControl.events s `prefix_of` RiskControl.events (exec t s)
  /\ (forall k, is_Some (RiskControl.assessmentResults s !! k) ->
                is_Some (RiskControl.assessmentResults (exec t s) !! k))
  /\ RiskControl.getAssessmentCount s <= RiskControl.getAssessmentCount (exec t s).
Proof.
  assert (H0 : RiskControl.allClientIds s `prefix_of` RiskControl.allClientIds s
               /\ RiskControl.events s `prefix_of` RiskControl.events s
               /\ forall k, is_Some (RiskControl.assessmentResults s !! k) ->
                            is_Some (RiskControl.assessmentResults s !! k)).
  { split; [reflexivity|]. split; [reflexivity|]. auto. }
  assert (H : RiskControl.allClientIds s `prefix_of` RiskControl.allClientIds (exec t s)
              /\ RiskControl.events s `prefix_of` RiskControl.events (exec t s)
              /\ forall k, is_Some (RiskControl.assessmentResults s !! k) ->
                           is_Some (RiskControl.assessmentResults (exec t s) !! k)).
  { unfold exec. destruct (tx_msg t) as [age income cid|ages incomes cids|m th|o].
    - destruct (RiskControl.assessRisk _ _ _ _ _) as [[res s']|e] eqn:E; cbn;
        [|exact H0].
      eapply extends_assess; eassumption.
    - destruct (RiskControl.batchAssessRisk _ _ _ _ _) as [[n s']|e] eqn:E; cbn;
        [|exact H0].
      apply batchAssessRisk_inv in E as (s1 & Hloop & ->). cbn.
      destruct (batch_loop_preserves
                  (fun s1 => RiskControl.allClientIds s `prefix_of` RiskControl.allClientIds s1
                             /\ RiskControl.events s `prefix_of` RiskControl.events s1
                             /\ forall k, is_Some (RiskControl.assessmentResults s !! k) ->
                                          is_Some (RiskControl.assessmentResults s1 !! k))
                  (tx_now t)
                  (fun a i c s1 res s1' => extends_assess s (tx_now t) a i c s1 s1' res)
                  ages incomes cids 0 s n s1 H0 Hloop) as (Hi & He & Hr).
      split; [exact Hi|]. split; [now apply prefix_app_r | exact Hr].
    - gated_cases t s; try exact H0.
      split; [reflexivity|]. split; [now apply prefix_app_r | auto].
    - gated_cases t s; exact H0. }
  destruct H as (Hi & He & Hr). unfold RiskControl.getAllClientIds,
    RiskControl.getAssessmentCount.
  repeat split; try assumption. apply prefix_length in Hi. lia.
Qed.

(** X7. Called by the owner, [updateRiskParameters] replaces both parameters
    and appends one event, leaving owner, records and index as they were;
    an assessment made afterwards decides with the new threshold and
    multiplier. *)
Theorem update_by_owner (now m t : Z) (s : RiskControl.state) :
  let s' := exec (mkTx (RiskControl.owner s) now (UpdateRiskParameters m t)) s in
  RiskControl.updateRiskParameters (RiskControl.owner s) now m t s = Ok (tt, s')
  /\ RiskControl.getRiskParameters s' = RiskControl.mkParams m t
  /\ RiskControl.getOwner s' = RiskControl.getOwner s
  /\ RiskControl.assessmentResults s' = RiskControl.assessmentResults s
  /\ RiskControl.getAllClientIds s' = RiskControl.getAllClientIds s
  /\ RiskControl.events s' = RiskControl.events s ++ [RiskControl.ParametersUpdated now]
  /\ (forall now2 age income cid res s2,
        is_uint256 age -> is_uint256 income ->
        RiskControl.assessRisk now2 age income cid s' = Ok (res, s2) ->
        res = (spec_limit (RiskControl.mkParams m t) income (t <=? spec_score age income),
               spec_score age income, t <=? spec_score age income)).
Proof.
  cbv zeta. unfold exec. cbn [tx_msg tx_sender tx_now].
  unfold RiskControl.updateRiskParameters, RiskControl.onlyOwner.
  rewrite Z.eqb_refl. cbn [require bind state_of].
  repeat split.
  intros now2 age income cid res s2 [Ha _] [Hi _] H.
  rewrite assessRisk_eq in H by assumption.
  cbn [RiskControl.riskParameters] in H.
  destruct (nonempty cid); [|discriminate H].
  destruct (limit_fits _ age income); [|discriminate H].
  cbv zeta in H. injection H as <- _. reflexivity.
Qed.

(** X8. [transferOwnership] reverts with the owner message for any caller but
    the owner, with the zero-address message when the owner names address
    zero, and otherwise makes [newOwner] the owner and changes nothing else
    (no event is emitted). *)
Theorem transferOwnership_cases (from newOwner : address) (s : RiskControl.state) :
  (from <> RiskControl.owner s ->
     RiskControl.transferOwnership from newOwner s = Err Unauthorized)
  /\ (from = RiskControl.owner s -> newOwner = 0 ->
        RiskControl.transferOwnership from newOwner s = Err ZeroOwner)
  /\ (from = RiskControl.owner s -> newOwner <> 0 ->
        exists s', RiskControl.transferOwnership from newOwner s = Ok (tt, s')
                   /\ RiskControl.getOwner s' = newOwner
                   /\ RiskControl.getRiskParameters s' = RiskControl.getRiskParameters s
                   /\ RiskControl.assessmentResults s' = RiskControl.assessmentResults s
                   /\ RiskControl.getAllClientIds s' = RiskControl.getAllClientIds s
                   /\ RiskControl.events s' = RiskControl.events s).
Proof.
  unfold RiskControl.transferOwnership, RiskControl.onlyOwner. repeat split.
  - intros Hne. apply Z.eqb_neq in Hne. now rewrite Hne.
  - intros -> ->. now rewrite Z.eqb_refl.
  - intros -> Hnz. rewrite Z.eqb_refl. apply Z.eqb_neq in Hnz. rewrite Hnz.
    cbn. eexists. repeat split.
Qed.

(** X9. After the owner hands the contract to another address, the former
    owner's [updateRiskParameters] reverts and the new owner's goes
    through. *)
Theorem ownership_handover (newOwner now now2 m t : Z) (s : RiskControl.state) :
  newOwner <> 0 -> newOwner <> RiskControl.owner s ->
  let s' := exec (mkTx (RiskControl.owner s) now (TransferOwnership newOwner)) s in
  RiskControl.getOwner s' = newOwner
  /\ RiskControl.updateRiskParameters (RiskControl.owner s) now2 m t s' = Err Unauthorized
  /\ (exists s2, RiskControl.updateRiskParameters newOwner now2 m t s' = Ok (tt, s2)
                 /\ RiskControl.getRiskParameters s2 = RiskControl.mkParams m t).
Proof.
  intros Hnz Hne. cbv zeta. unfold exec. cbn [tx_msg tx_sender tx_now].
  unfold RiskControl.transferOwnership, RiskControl.onlyOwner.
  rewrite Z.eqb_refl. apply Z.eqb_neq in Hnz. rewrite Hnz. cbn [require bind negb state_of].
  unfold RiskControl.updateRiskParameters, RiskControl.onlyOwner, RiskControl.getOwner.
  cbn [RiskControl.owner]. split; [reflexivity|]. split.
  - assert (Hd : (RiskControl.owner s =? newOwner) = false)
      by (apply Z.eqb_neq; congruence).
    now rewrite Hd.
  - rewrite Z.eqb_refl. cbn. eexists. split; reflexivity.
Qed.

Lemma ownership_handover_witness :
  RiskControl.updateRiskParameters 1 30 5 60
    (exec (mkTx 1 20 (TransferOwnership 7)) (RiskControl.constructor 1))
  = Err Unauthorized.
Proof.
  destruct (ownership_handover 7 20 30 5 60 (RiskControl.constructor 1)) as (_ & H & _).
  - discriminate.
  - cbn. discriminate.
  - exact H.
Defined.

Lemma exec_owner_nonzero (t : tx) (s : RiskControl.state) :
  RiskControl.owner s <> 0 -> RiskControl.owner (exec t s) <> 0.
Proof.
  intros Hnz. unfold exec. destruct (tx_msg t) as [age income cid|ages incomes cids|m th|o].
  - destruct (RiskControl.assessRisk _ _ _ _ _) as [[res s']|e] eqn:E; cbn; [|assumption].
    apply assessRisk_inv in E as (r & -> & _). assumption.
  - destruct (RiskControl.batchAssessRisk _ _ _ _ _) as [[n s']|e] eqn:E; cbn; [|assumption].
    apply batchAssessRisk_inv in E as (s1 & Hloop & ->). cbn.
    eapply (batch_loop_preserves (fun s1 => RiskControl.owner s1 <> 0));
      [|exact Hnz|exact Hloop].
    intros a i c s0 res s0' H0 H. apply assessRisk_inv in H as (r & -> & _). assumption.
  - gated_cases t s; assumption.
  - unfold RiskControl.transferOwnership, RiskControl.onlyOwner.
    destruct (tx_sender t =? RiskControl.owner s); cbn; [|assumption].
    destruct (o =? 0) eqn:E; cbn; [assumption|]. now apply Z.eqb_neq.
Qed.

(** X10. A contract deployed from a non-zero address never has the zero address
    as its owner, whatever transactions follow. *)
Theorem owner_never_zero (deployer : address) (ts : list tx) :
  deployer <> 0 -> RiskControl.getOwner (run ts (RiskControl.constructor deployer)) <> 0.
Proof.
  intros Hd. unfold RiskControl.getOwner.
  assert (H : forall s, RiskControl.owner s <> 0 -> RiskControl.owner (run ts s) <> 0).
  { induction ts as [|t ts IH]; intros s Hs; [assumption|].
    cbn. apply IH. now apply exec_owner_nonzero. }
  apply H. assumption.
Qed.

Lemma owner_never_zero_witness :
  RiskControl.getOwner
    (run [mkTx 1 5 (TransferOwnership 0); mkTx 1 6 (TransferOwnership 9)]
         (RiskControl.constructor 1)) <> 0.
Proof. apply owner_never_zero. discriminate. Defined.

Lemma assess_keeps_settings (now a i : Z) (c : string) (s s' : RiskControl.state)
      (res : Z * Z * bool) (p : RiskControl.RiskParameters) (o : address) :
  RiskControl.riskParameters s = p /\ RiskControl.owner s = o ->
  RiskControl.assessRisk now a i c s = Ok (res, s') ->
  RiskControl.riskParameters s' = p /\ RiskControl.owner s' = o.
Proof. intros Hs H. apply assessRisk_inv in H as (r & -> & _). exact Hs. Qed.

(** X11. The parameters and the owner change only through calls made by the
    current owner: a transaction from any other sender leaves both as they
    were, and so does any assessment, single or batch, whoever sends it. *)
Theorem settings_change_only_by_owner (t : tx) (s : RiskControl.state) :
  (tx_sender t <> RiskControl.getOwner s ->
     RiskControl.getRiskParameters (exec t s) = RiskControl.getRiskParameters s
     /\ RiskControl.getOwner (exec t s) = RiskControl.getOwner s)
  /\ (forall age income cid, tx_msg t = AssessRisk age income cid ->
        RiskControl.getRiskParameters (exec t s) = RiskControl.getRiskParameters s
        /\ RiskControl.getOwner (exec t s) = RiskControl.getOwner s)
  /\ (forall ages incomes cids, tx_msg t = BatchAssessRisk ages incomes cids ->
        RiskControl.getRiskParameters (exec t s) = RiskControl.getRiskParameters s
        /\ RiskControl.getOwner (exec t s) = RiskControl.getOwner s).
Proof.
  unfold RiskControl.getRiskParameters, RiskControl.getOwner.
  assert (Hassess : forall age income cid, tx_msg t = AssessRisk age income cid ->
            RiskControl.riskParameters (exec t s) = RiskControl.riskParameters s
            /\ RiskControl.owner (exec t s) = RiskControl.owner s).
  { intros age income cid Hm. unfold exec. rewrite Hm.
    destruct (RiskControl.assessRisk _ _ _ _ _) as [[res s']|e] eqn:E; cbn; [|auto].
    eapply assess_keeps_settings; [|exact E]. auto. }
  assert (Hbatch : forall ages incomes cids, tx_msg t = BatchAssessRisk ages incomes cids ->
            RiskControl.riskParameters (exec t s) = RiskControl.riskParameters s
            /\ RiskControl.owner (exec t s) = RiskControl.owner s).
  { intros ages incomes cids Hm. unfold exec. rewrite Hm.
    destruct (RiskControl.batchAssessRisk _ _ _ _ _) as [[n s']|e] eqn:E; cbn; [|auto].
    apply batchAssessRisk_inv in E as (s1 & Hloop & ->). cbn.
    eapply (batch_loop_preserves
              (fun s1 => RiskControl.riskParameters s1 = RiskControl.riskParameters s
                         /\ RiskControl.owner s1 = RiskControl.owner s));
      [|split; reflexivity|exact Hloop].
    intros a i c s0 res s0'. apply assess_keeps_settings. }
  split; [|split; assumption].
  intros Hne. destruct (tx_msg t) as [age income cid|ages incomes cids|m th|o] eqn:Hm.
  - eapply Hassess; reflexivity.
  - eapply Hbatch; reflexivity.
  - unfold exec. rewrite Hm.
    unfold RiskControl.updateRiskParameters, RiskControl.onlyOwner.
    apply Z.eqb_neq in Hne. rewrite Hne. cbn. auto.
  - unfold exec. rewrite Hm.
    unfold RiskControl.transferOwnership, RiskControl.onlyOwner.
    apply Z.eqb_neq in Hne. rewrite Hne. cbn. auto.
Qed.

Lemma persist_events_length (r : RiskControl.AssessmentResult) (s : RiskControl.state) :
  Z.of_nat (length (RiskControl.events (persist r s)))
  = Z.of_nat (length (RiskControl.events s)) + 1.
Proof. unfold persist. cbn. rewrite length_app. cbn. lia. Qed.

Lemma run_cons (t : tx) (ts : list tx) (s : RiskControl.state) :
  run (t :: ts) s = run ts (exec t s).
Proof. reflexivity. Qed.

Lemma exec_assess (from now a i : Z) (c : string) (s : RiskControl.state) :
  exec (mkTx from now (AssessRisk a i c)) s
  = state_of s (RiskControl.assessRisk now a i c s).
Proof. reflexivity. Qed.

(** The loop against the same assessments sent one by one. *)
Lemma batch_loop_as_run (from now : Z) (ages incomes : list Z) (cids : list string) :
  forall (n0 : Z) (s : RiskControl.state) (n : Z) (s1 : RiskControl.state),
    RiskControl.batch_loop now ages incomes cids n0 s = Ok (n, s1) ->
    s1 = run (single_txs from now (zip3 ages incomes cids)) s
    /\ n - n0 = Z.of_nat (length (RiskControl.events s1))
                - Z.of_nat (length (RiskControl.events s)).
Proof.
  revert incomes cids. induction ages as [|a ages IH]; intros incomes cids n0 s n s1 H.
  - cbn in H. injection H as <- <-. cbn. split; [reflexivity | lia].
  - destruct incomes as [|i incomes]; [discriminate|].
    destruct cids as [|c cids]; [discriminate|].
    cbn [RiskControl.batch_loop] in H.
    change (single_txs from now (zip3 (a :: ages) (i :: incomes) (c :: cids)))
      with (mkTx from now (AssessRisk a i c)
              :: single_txs from now (zip3 ages incomes cids)).
    rewrite run_cons, exec_assess.
    destruct (RiskControl.assessRisk now a i c s) as [[res s']|e] eqn:E; cbn [state_of].
    + apply IH in H as [-> Hn]. split; [reflexivity|].
      apply assessRisk_inv in E as (r & -> & _).
      rewrite persist_events_length in Hn. lia.
    + apply IH in H as [-> Hn]. split; [reflexivity|]. exact Hn.
Qed.

(** X12. A batch is its assessments sent one by one: when [batchAssessRisk]
    returns, owner, parameters, records and index are those reached by the
    single [assessRisk] transactions in array order, the event log is theirs
    followed by the batch event, and [successCount] is the number of
    assessment events they emitted. *)
Theorem batch_as_single_assessments (from now : Z) (ages incomes : list Z)
        (cids : list string) (s s' : RiskControl.state) (n : Z) :
  RiskControl.batchAssessRisk now ages incomes cids s = Ok (n, s') ->
  let s1 := run (single_txs from now (zip3 ages incomes cids)) s in
  storage s' = storage s1
  /\ RiskControl.events s'
     = RiskControl.events s1 ++ [RiskControl.BatchAssessmentPerformed n now]
  /\ n = Z.of_nat (length (RiskControl.events s1))
         - Z.of_nat (length (RiskControl.events s)).
Proof.
  intros H. apply batchAssessRisk_inv in H as (s1 & Hloop & ->).
  apply (batch_loop_as_run from) in Hloop as [-> Hn]. cbv zeta.
  unfold storage. cbn. repeat split. lia.
Qed.

Lemma batch_as_single_assessments_witness :
  exists n s',
    RiskControl.batchAssessRisk 50 [30; 99; 45] [70000000000; 1; 10000000000]
                                ["a"; ""; "b"] (RiskControl.constructor 1) = Ok (n, s')
    /\ storage s'
       = storage (run [mkTx 4 50 (AssessRisk 30 70000000000 "a");
                       mkTx 4 50 (AssessRisk 99 1 "");
                       mkTx 4 50 (AssessRisk 45 10000000000 "b")]
                      (RiskControl.constructor 1)).
Proof.
  destruct (RiskControl.batchAssessRisk 50 [30; 99; 45] [70000000000; 1; 10000000000]
              ["a"; ""; "b"] (RiskControl.constructor 1)) as [[n s']|e] eqn:E;
    [|discriminate E].
  exists n, s'. split; [reflexivity|].
  destruct (batch_as_single_assessments 4 50 [30; 99; 45] [70000000000; 1; 10000000000]
              ["a"; ""; "b"] (RiskControl.constructor 1) s' n E) as [H _].
  exact H.
Defined.

Lemma persist_all_owner (p : RiskControl.RiskParameters) (now : Z)
      (l : list (Z * Z * string)) (s : RiskControl.state) :
  RiskControl.owner (persist_all p now l s) = RiskControl.owner s.
Proof.
  revert s. induction l as [|it l IH]; intros s; [reflexivity|].
  rewrite persist_all_cons, IH. reflexivity.
Qed.

(** X13. On arrays of equal length with [uint256] entries, [batchAssessRisk]
    never reverts: it returns the number of records on which a single
    assessment succeeds, a number between 0 and the length of the arrays,
    and keeps owner and parameters. *)
Theorem batch_counts_valid_records (now : Z) (ages incomes : list Z) (cids : list string)
        (s : RiskControl.state) :
  length ages = length incomes -> length incomes = length cids ->
  forallb uint256b ages = true -> forallb uint256b incomes = true ->
  exists n s',
    RiskControl.batchAssessRisk now ages incomes cids s = Ok (n, s')
    /\ n = Z.of_nat (length (List.filter (valid_record (RiskControl.riskParameters s))
                                         (zip3 ages incomes cids)))
    /\ 0 <= n <= Z.of_nat (length ages)
    /\ RiskControl.getRiskParameters s' = RiskControl.getRiskParameters s
    /\ RiskControl.getOwner s' = RiskControl.getOwner s.
Proof.
  intros Hl1 Hl2 Ha Hi.
  pose proof (batch_loop_eq now ages incomes cids 0 s Hl1 Hl2 Ha Hi) as Hloop.
  cbv zeta in Hloop.
  set (done := List.filter (valid_record (RiskControl.riskParameters s))
                           (zip3 ages incomes cids)) in *.
  unfold RiskControl.batchAssessRisk.
  rewrite (proj2 (lengths_check ages incomes cids) (conj Hl1 Hl2)).
  cbn [require bind]. rewrite Hloop. cbn [bind].
  eexists _, _. split; [reflexivity|]. split; [lia|]. split.
  - pose proof (List.filter_length_le (valid_record (RiskControl.riskParameters s))
                                      (zip3 ages incomes cids)) as Hle.
    fold done in Hle. rewrite zip3_length in Hle by assumption. lia.
  - unfold RiskControl.getRiskParameters, RiskControl.getOwner.
    cbn [RiskControl.riskParameters RiskControl.owner].
    rewrite persist_all_params, persist_all_owner. split; reflexivity.
Qed.

Lemma batch_counts_valid_records_witness :
  exists s', RiskControl.batchAssessRisk 50 [30; 99; 45; 7] [70000000000; 1; 10000000000; 3]
                                         ["a"; ""; "b"; ""] (RiskControl.constructor 1)
             = Ok (2, s').
Proof.
  destruct (batch_counts_valid_records 50 [30; 99; 45; 7] [70000000000; 1; 10000000000; 3]
              ["a"; ""; "b"; ""] (RiskControl.constructor 1))
    as (n & s' & H & Hn & _); try reflexivity.
  exists s'. rewrite H, Hn. reflexivity.
Defined.

(** ** Further properties of the score *)

Lemma spec_score_monotone (a1 i1 a2 i2 : Z) :
  a1 <= a2 -> i1 <= i2 -> spec_score a1 i1 <= spec_score a2 i2.
Proof.
  intros Ha Hi. unfold spec_score, ageFactor, incomeFactor.
  assert (i1 / 10 ^ 6 / 1000 <= i2 / 10 ^ 6 / 1000).
  { apply Z.div_le_mono; [lia|]. apply Z.div_le_mono; lia. }
  lia.
Qed.

(** X14. The score never decreases when the age or the income grows. *)
Theorem calculateRiskScore_monotone (a1 i1 a2 i2 : Z) :
  is_uint256 a1 -> is_uint256 i1 -> is_uint256 a2 -> is_uint256 i2 ->
  a1 <= a2 -> i1 <= i2 ->
  exists r1 r2, RiskControl.calculateRiskScore a1 i1 = Ok r1
                /\ RiskControl.calculateRiskScore a2 i2 = Ok r2
                /\ r1 <= r2.
Proof.
  intros [H1 _] [H2 _] [H3 _] [H4 _] Ha Hi.
  exists (spec_score a1 i1), (spec_score a2 i2).
  rewrite !calculateRiskScore_spec by assumption.
  split; [reflexivity|]. split; [reflexivity|]. now apply spec_score_monotone.
Qed.

Lemma calculateRiskScore_monotone_witness :
  exists r1 r2, RiskControl.calculateRiskScore 20 3000000000 = Ok r1
                /\ RiskControl.calculateRiskScore 39 3999999999 = Ok r2
                /\ r1 <= r2.
Proof.
  apply calculateRiskScore_monotone; unfold is_uint256; rewrite ?MAX_UINT256_eq; lia.
Defined.

Lemma income_units (income k : Z) :
  0 <= k -> (k <= income / 10 ^ 6 / 1000 <-> k * 1000000000 <= income).
Proof.
  intros Hk. rewrite Z.div_div by lia. change (10 ^ 6 * 1000) with 1000000000. split.
  - intros H. pose proof (Z.mul_div_le income 1000000000). nia.
  - intros H. apply Z.div_le_lower_bound; lia.
Qed.

(** X15. The score reaches its maximum of 100 exactly when the age is at least
    40 and the income at least 60_000_000_000 (60 000 whole units). *)
Theorem calculateRiskScore_maximum (age income : Z) :
  is_uint256 age -> is_uint256 income ->
  (RiskControl.calculateRiskScore age income = Ok 100
   <-> 40 <= age /\ 60000000000 <= income).
Proof.
  intros [Ha _] [Hi _]. rewrite calculateRiskScore_spec by assumption.
  pose proof (income_units income 60 ltac:(lia)) as Hu.
  unfold spec_score, ageFactor, incomeFactor. split.
  - intros H. injection H as H. split; [lia|]. apply Hu. lia.
  - intros [H40 H60]. f_equal. apply Hu in H60. lia.
Qed.

Lemma calculateRiskScore_maximum_witness :
  RiskControl.calculateRiskScore 40 60000000000 = Ok 100.
Proof.
  apply calculateRiskScore_maximum; try (unfold is_uint256; rewrite MAX_UINT256_eq; lia).
  lia.
Defined.

(** X16. With the default parameters the income decides at both ends: an income
    of at least 50_000_000_000 is approved at any age, an income below
    10_000_000_000 is refused at any age and given a credit limit of 0. *)
Theorem default_approval_by_income (now age income : Z) (cid : string)
        (s s' : RiskControl.state) (limit score : Z) (ok : bool) :
  RiskControl.riskParameters s = RiskControl.mkParams 2 50 ->
  is_uint256 age -> is_uint256 income ->
  RiskControl.assessRisk now age income cid s = Ok ((limit, score, ok), s') ->
  (50000000000 <= income -> ok = true /\ limit = (income / 12) * 2)
  /\ (income < 10000000000 -> ok = false /\ limit = 0).
Proof.
  intros Hp [Ha _] [Hi _] H. rewrite assessRisk_eq in H by assumption.
  destruct (nonempty cid); [|discriminate H].
  destruct (limit_fits _ age income); [|discriminate H].
  cbv zeta in H. inversion H as [[Hlimit Hscore Hok Hstate]]. clear H Hstate Hscore.
  rewrite Hp.
  unfold spec_record, spec_approved, spec_limit.
  cbn [RiskControl.creditLimit RiskControl.approved RiskControl.riskThreshold
       RiskControl.incomeMultiplier].
  pose proof (income_units income 50 ltac:(lia)) as H50.
  pose proof (income_units income 10 ltac:(lia)) as H10.
  unfold spec_score, ageFactor, incomeFactor. split.
  - intros Hbig. apply H50 in Hbig.
    assert (Hle : 50 <= Z.min age 40 + Z.min (income / 10 ^ 6 / 1000) 60) by lia.
    apply Z.leb_le in Hle. rewrite Hle. split; reflexivity.
  - intros Hsmall.
    assert (Hlt : ~ 10 <= income / 10 ^ 6 / 1000) by (rewrite H10; lia).
    assert (Hgt : Z.min age 40 + Z.min (income / 10 ^ 6 / 1000) 60 < 50) by lia.
    apply Z.leb_gt in Hgt. rewrite Hgt. split; reflexivity.
Qed.

Lemma default_approval_by_income_witness :
  exists s', RiskControl.assessRisk 5 0 50000000000 "young" (RiskControl.constructor 1)
             = Ok ((8333333332, 50, true), s').
Proof.
  destruct (RiskControl.assessRisk 5 0 50000000000 "young" (RiskControl.constructor 1))
    as [[[[limit score] ok] s']|e] eqn:E; [|discriminate E].
  exists s'.
  destruct (default_approval_by_income 5 0 50000000000 "young" (RiskControl.constructor 1)
              s' limit score ok eq_refl) as [H _];
    try (unfold is_uint256; rewrite MAX_UINT256_eq; lia); [exact E|].
  destruct H as [-> ->]; [lia|]. vm_compute in E.
  inversion E as [[Hscore Hstate]]. reflexivity.
Defined.

(** ** Further properties of the confidential contract *)

(** X17. For 32-bit age and income the encrypted score decrypts to
    [min(age, 40) + income / 10^9] and is at most 44: a 32-bit income is
    below 4 295 whole units, so the income factor stays below 5 and its cap
    of 60 is never reached. *)
Theorem confidential_score_bounded (age income : Z) :
  is_uint32 age -> is_uint32 income ->
  FHE.dec (FHERC.calculateEncryptedRiskScore (FHE.Enc age) (FHE.Enc income))
  = Z.min age 40 + income / 1000000000
  /\ 0 <= FHE.dec (FHERC.calculateEncryptedRiskScore (FHE.Enc age) (FHE.Enc income)) <= 44.
Proof.
  intros Ha Hi. rewrite calculateEncryptedRiskScore_dec by assumption.
  unfold is_uint32 in *. rewrite two_32_eq in *.
  unfold spec_score, ageFactor, incomeFactor.
  rewrite Z.div_div by lia. change (10 ^ 6 * 1000) with 1000000000.
  assert (0 <= income / 1000000000 <= 4).
  { split; [apply Z.div_pos; lia|].
    assert (income / 1000000000 < 5) by (apply Z.div_lt_upper_bound; lia). lia. }
  lia.
Qed.

Lemma confidential_score_bounded_witness :
  FHE.dec (FHERC.calculateEncryptedRiskScore (FHE.Enc 70) (FHE.Enc 4294967295)) = 44.
Proof.
  destruct (confidential_score_bounded 70 4294967295) as [H _];
    try (unfold is_uint32; rewrite two_32_eq; lia).
  exact H.
Defined.

Lemma assessRiskEncrypted_inv (now : Z) (a i : FHE.euint32) (cid : string)
      (s s' : FHERC.state) (res : FHE.euint32 * FHE.euint32 * FHE.ebool) :
  FHERC.assessRiskEncrypted now a i cid s = Ok (res, s') ->
  cid <> ""
  /\ FHERC.owner s' = FHERC.owner s
  /\ FHERC.riskParameters s' = FHERC.riskParameters s
  /\ FHERC.allClientIds s' = upsert_id (FHERC.allClientIds s) cid
  /\ exists r, FHERC.clientId r = cid
               /\ FHERC.encryptedAssessments s' = <[cid := r]> (FHERC.encryptedAssessments s)
               /\ res = (FHERC.creditLimit r, FHERC.riskScore r, FHERC.approved r).
Proof.
  unfold FHERC.assessRiskEncrypted. destruct (nonempty cid) eqn:Hn; [|discriminate].
  cbn [require bind]. intros H. injection H as <- <-.
  split; [now apply nonempty_true|]. cbn [FHERC.owner FHERC.riskParameters
    FHERC.allClientIds FHERC.encryptedAssessments].
  split; [reflexivity|]. split; [reflexivity|]. split.
  - unfold upsert_id, FHERC.clientIdExists. now rewrite clientIdExists_from_same.
  - eexists. split; [|split; reflexivity]. reflexivity.
Qed.

(** X18. With the parameters the constructor sets (multiplier 2, threshold 50),
    the confidential contract approves no client whose age and income are
    32-bit values: every assessment with a non-empty identifier returns and
    stores an approval that decrypts to [false] and a credit limit that
    decrypts to 0. *)
Theorem confidential_default_never_approves (now age income : Z) (cid : string)
        (s : FHERC.state) :
  FHERC.riskParameters s = FHERC.mkParams (FHE.asEuint32 2) (FHE.asEuint32 50) ->
  is_uint32 age -> is_uint32 income -> cid <> "" ->
  exists limit score ok s',
    FHERC.assessRiskEncrypted now (FHE.Enc age) (FHE.Enc income) cid s
    = Ok ((limit, score, ok), s')
    /\ FHE.decb ok = false /\ FHE.dec limit = 0
    /\ FHERC.encryptedAssessments s' !! cid
       = Some (FHERC.mkAssessment limit score ok cid now).
Proof.
  intros Hp Ha Hi Hne.
  destruct (confidential_score_bounded age income Ha Hi) as [_ Hb].
  unfold FHERC.assessRiskEncrypted. apply nonempty_true in Hne. rewrite Hne.
  cbn [require bind]. rewrite Hp. cbn [FHERC.constructor FHERC.riskParameters
    FHERC.riskThreshold FHERC.incomeMultiplier].
  eexists _, _, _, _. split; [reflexivity|].
  assert (Hgt : FHE.gt (FHERC.calculateEncryptedRiskScore (FHE.Enc age) (FHE.Enc income))
                       (FHE.asEuint32 50) = FHE.EncBool false).
  { unfold FHE.gt. f_equal. change (FHE.dec (FHE.asEuint32 50)) with 50.
    apply Z.ltb_ge. lia. }
  rewrite Hgt. cbn [FHE.cmux FHE.decb FHERC.encryptedAssessments].
  split; [reflexivity|]. split; [reflexivity|]. apply lookup_insert_eq.
Qed.

Lemma confidential_default_never_approves_witness :
  exists limit score s',
    FHERC.assessRiskEncrypted 3 (FHE.Enc 90) (FHE.Enc 4294967295) "rich" (FHERC.constructor 1)
    = Ok ((limit, score, FHE.EncBool false), s').
Proof.
  destruct (confidential_default_never_approves 3 90 4294967295 "rich" (FHERC.constructor 1))
    as (limit & score & ok & s' & H & Hok & _);
    try (unfold is_uint32; rewrite two_32_eq; lia); [reflexivity | discriminate |].
  exists limit, score, s'. destruct ok as [b]. cbn in Hok. subst b. exact H.
Defined.

Lemma enc_assess_consistent (now : Z) (a i : FHE.euint32) (cid : string)
      (s s' : FHERC.state) (res : FHE.euint32 * FHE.euint32 * FHE.ebool) :
  enc_ledger_consistent s -> FHERC.assessRiskEncrypted now a i cid s = Ok (res, s') ->
  enc_ledger_consistent s'.
Proof.
  intros (Hnd & Hidx & Hkey) H.
  apply assessRiskEncrypted_inv in H as (Hne & _ & _ & Hids & r & Hid & Hm & _).
  unfold enc_ledger_consistent. rewrite Hids, Hm.
  split; [now apply upsert_id_NoDup|]. split.
  - intros k. rewrite upsert_id_elem. destruct (decide (cid = k)) as [<-|Hk].
    + rewrite lookup_insert_eq. split; [eauto | now right].
    + rewrite lookup_insert_ne by assumption. rewrite <- Hidx.
      split; [intros [H|H]; [assumption | congruence] | now left].
  - intros k r0 H. destruct (decide (cid = k)) as [<-|Hk].
    + rewrite lookup_insert_eq in H. injection H as <-. now split.
    + rewrite lookup_insert_ne in H by assumption. now apply (Hkey k r0).
Qed.

Lemma enc_batch_loop_preserves (P : FHERC.state -> Prop) (now : Z) :
  (forall a i c s res s',
      P s -> FHERC.assessRiskEncrypted now a i c s = Ok (res, s') -> P s') ->
  forall ages incomes cids n s n' s',
    P s -> FHERC.batch_loop now ages incomes cids n s = Ok (n', s') -> P s'.
Proof.
  intros Hstep. induction ages as [|a ages IH]; intros incomes cids n s n' s' HP H.
  - cbn in H. now injection H as _ <-.
  - destruct incomes as [|i incomes]; [discriminate|].
    destruct cids as [|c cids]; [discriminate|]. cbn in H.
    destruct (FHERC.assessRiskEncrypted now a i c s) as [[res s1]|e] eqn:E.
    + apply (IH _ _ _ _ _ _ (Hstep _ _ _ _ _ _ HP E) H).
    + apply (IH _ _ _ _ _ _ HP H).
Qed.

Lemma enc_exec_consistent (t : enc_tx) (s : FHERC.state) :
  enc_ledger_consistent s -> enc_ledger_consistent (enc_exec t s).
Proof.
  intros Hc. unfold enc_exec.
  destruct (enc_msg t) as [a i cid|ages incomes cids|m th|o].
  - destruct (FHERC.assessRiskEncrypted _ _ _ _ _) as [[res s']|e] eqn:E; cbn; [|assumption].
    eapply enc_assess_consistent; eassumption.
  - unfold FHERC.batchAssessRiskEncrypted.
    destruct (_ && _); cbn [require bind enc_state_of]; [|assumption].
    destruct (FHERC.batch_loop _ _ _ _ _ _) as [[n s1]|e] eqn:E;
      cbn [bind enc_state_of]; [|assumption].
    assert (H1 : enc_ledger_consistent s1).
    { eapply (enc_batch_loop_preserves enc_ledger_consistent); [|exact Hc|exact E].
      intros a i c s0 res s0' H0 H. eapply enc_assess_consistent; eassumption. }
    exact H1.
  - unfold FHERC.updateRiskParametersEncrypted, FHERC.onlyOwner.
    destruct (enc_sender t =? FHERC.owner s); cbn; assumption.
  - unfold FHERC.transferOwnership, FHERC.onlyOwner.
    destruct (enc_sender t =? FHERC.owner s); cbn; [|assumption].
    destruct (negb (o =? 0)); cbn; assumption.
Qed.

Lemma enc_reachable_consistent (s : FHERC.state) :
  enc_reachable s -> enc_ledger_consistent s.
Proof.
  induction 1 as [d|s t Hs IH].
  - unfold enc_ledger_consistent, FHERC.constructor. cbn. split; [apply NoDup_nil_2|].
    split.
    + intros k. rewrite lookup_empty.
      split; [intros H; inversion H | intros [x H]; discriminate].
    + intros k r H. rewrite lookup_empty in H. discriminate.
  - now apply enc_exec_consistent.
Qed.

(** X19. In every reachable state of the confidential contract the index holds
    no identifier twice, and [getEncryptedAssessmentResult] returns exactly
    for the identifiers in the index: it reverts with the identifier's
    message on the empty identifier and with the not-found message on any
    other identifier that was never assessed. *)
Theorem getEncryptedAssessmentResult_cases (s : FHERC.state) (id : string) :
  enc_reachable s ->
  NoDup (FHERC.getAllClientIds s)
  /\ (id = "" -> FHERC.getEncryptedAssessmentResult s id = Err InvalidInput)
  /\ (id <> "" -> id ∉ FHERC.getAllClientIds s ->
      FHERC.getEncryptedAssessmentResult s id = Err NotFound)
  /\ (id ∈ FHERC.getAllClientIds s ->
      exists r, FHERC.encryptedAssessments s !! id = Some r
                /\ FHERC.getEncryptedAssessmentResult s id
                   = Ok (FHERC.creditLimit r, FHERC.riskScore r, FHERC.approved r,
                         FHERC.timestamp r)).
Proof.
  intros Hr. apply enc_reachable_consistent in Hr as (Hnd & Hidx & Hkey).
  unfold FHERC.getAllClientIds. split; [exact Hnd|].
  unfold FHERC.getEncryptedAssessmentResult, FHERC.read.
  split; [intros ->; reflexivity|]. split.
  - intros Hne Hni. apply nonempty_true in Hne. rewrite Hne. cbn [require bind].
    destruct (FHERC.encryptedAssessments s !! id) as [r|] eqn:Hl; [|reflexivity].
    exfalso. apply Hni, Hidx. eauto.
  - intros Hin. apply Hidx in Hin as [r Hl]. exists r. split; [exact Hl|].
    destruct (Hkey id r Hl) as [Hid Hne]. apply nonempty_true in Hne.
    rewrite Hne, Hl. cbn [require bind]. rewrite Hid, Hne. reflexivity.
Qed.

Lemma getEncryptedAssessmentResult_cases_witness :
  FHERC.getEncryptedAssessmentResult
    (enc_exec (mkEncTx 1 4 (AssessRiskEncrypted (FHE.Enc 30) (FHE.Enc 5) "a"))
              (FHERC.constructor 1)) "b" = Err NotFound.
Proof.
  destruct (getEncryptedAssessmentResult_cases
              (enc_exec (mkEncTx 1 4 (AssessRiskEncrypted (FHE.Enc 30) (FHE.Enc 5) "a"))
                        (FHERC.constructor 1)) "b") as (_ & _ & H & _).
  - apply enc_reachable_exec, enc_reachable_deploy.
  - apply H; [discriminate|]. vm_compute. intros Hin.
    apply list_elem_of_singleton in Hin. discriminate Hin.
Defined.

Lemma enc_batch_loop_count (now : Z) (ages incomes : list FHE.euint32) (cids : list string) :
  forall (n : Z) (s : FHERC.state),
    length ages = length incomes -> length incomes = length cids ->
    exists s', FHERC.batch_loop now ages incomes cids n s
               = Ok (n + Z.of_nat (length (List.filter nonempty cids)), s')
               /\ FHERC.owner s' = FHERC.owner s
               /\ FHERC.riskParameters s' = FHERC.riskParameters s.
Proof.
  revert incomes cids. induction ages as [|a ages IH]; intros incomes cids n s Hl1 Hl2.
  - destruct incomes; [|discriminate]. destruct cids; [|discriminate].
    exists s. cbn. rewrite Z.add_0_r. auto.
  - destruct incomes as [|i incomes]; [discriminate|].
    destruct cids as [|c cids]; [discriminate|].
    injection Hl1 as Hl1. injection Hl2 as Hl2.
    cbn [FHERC.batch_loop List.filter].
    destruct (FHERC.assessRiskEncrypted now a i c s) as [[res s1]|e] eqn:E.
    + apply assessRiskEncrypted_inv in E as (Hne & Ho & Hp & _).
      apply nonempty_true in Hne. rewrite Hne.
      destruct (IH incomes cids (n + 1) s1 Hl1 Hl2) as (s' & H & Ho' & Hp').
      exists s'. rewrite H. cbn [length]. split; [f_equal; f_equal; lia|].
      split; congruence.
    + assert (Hn : nonempty c = false).
      { unfold FHERC.assessRiskEncrypted in E. destruct (nonempty c); [discriminate E|].
        reflexivity. }
      rewrite Hn. apply IH; assumption.
Qed.

(** X20. [batchAssessRiskEncrypted] reverts with the length message when the
    three arrays differ in length, leaving the state as it was; on arrays of
    equal length it never reverts and returns the number of non-empty
    identifiers, an empty identifier being the only reason an item is
    skipped. *)
Theorem confidential_batch_count (from now : Z) (ages incomes : list FHE.euint32)
        (cids : list string) (s : FHERC.state) :
  (~ (length ages = length incomes /\ length incomes = length cids) ->
     FHERC.batchAssessRiskEncrypted now ages incomes cids s = Err LengthMismatch
     /\ enc_exec (mkEncTx from now (BatchAssessRiskEncrypted ages incomes cids)) s = s)
  /\ (length ages = length incomes -> length incomes = length cids ->
        exists s', FHERC.batchAssessRiskEncrypted now ages incomes cids s
                   = Ok (Z.of_nat (length (List.filter nonempty cids)), s')
                   /\ FHERC.getOwner s' = FHERC.getOwner s
                   /\ FHERC.riskParameters s' = FHERC.riskParameters s).
Proof.
  split.
  - intros Hne.
    assert (Hc : Nat.eqb (length ages) (length incomes)
                 && Nat.eqb (length incomes) (length cids) = false).
    { apply not_true_is_false. rewrite andb_true_iff, !Nat.eqb_eq. exact Hne. }
    assert (H : FHERC.batchAssessRiskEncrypted now ages incomes cids s = Err LengthMismatch).
    { unfold FHERC.batchAssessRiskEncrypted. rewrite Hc. reflexivity. }
    split; [exact H|]. unfold enc_exec. cbn [enc_msg enc_now]. rewrite H. reflexivity.
  - intros Hl1 Hl2.
    destruct (enc_batch_loop_count now ages incomes cids 0 s Hl1 Hl2) as (s1 & H & Ho & Hp).
    unfold FHERC.batchAssessRiskEncrypted.
    assert (Hc : Nat.eqb (length ages) (length incomes)
                 && Nat.eqb (length incomes) (length cids) = true).
    { rewrite andb_true_iff, !Nat.eqb_eq. auto. }
    rewrite Hc. cbn [require bind]. rewrite H. cbn [bind].
    eexists. split; [reflexivity|]. unfold FHERC.getOwner. cbn. auto.
Qed.

(** X21. The owner gate of the confidential contract: for any caller but the
    owner, [updateRiskParametersEncrypted] and [transferOwnership] revert
    with the owner message and leave the state as it was; the owner's
    update replaces both parameters, and the owner's transfer reverts on the
    zero address and otherwise installs the new owner. *)
Theorem confidential_owner_gate (from now : Z) (m th : FHE.euint32) (newOwner : address)
        (s : FHERC.state) :
  (from <> FHERC.owner s ->
     FHERC.updateRiskParametersEncrypted from now m th s = Err Unauthorized
     /\ FHERC.transferOwnership from newOwner s = Err Unauthorized
     /\ enc_exec (mkEncTx from now (UpdateRiskParametersEncrypted m th)) s = s
     /\ enc_exec (mkEncTx from now (TransferOwnershipEncrypted newOwner)) s = s)
  /\ (from = FHERC.owner s ->
        (exists s', FHERC.updateRiskParametersEncrypted from now m th s = Ok (tt, s')
                    /\ FHERC.riskParameters s' = FHERC.mkParams m th
                    /\ FHERC.getOwner s' = FHERC.getOwner s
                    /\ FHERC.encryptedAssessments s' = FHERC.encryptedAssessments s
                    /\ FHERC.getAllClientIds s' = FHERC.getAllClientIds s)
        /\ (newOwner = 0 -> FHERC.transferOwnership from newOwner s = Err ZeroOwner)
        /\ (newOwner <> 0 ->
              exists s', FHERC.transferOwnership from newOwner s = Ok (tt, s')
                         /\ FHERC.getOwner s' = newOwner
                         /\ FHERC.riskParameters s' = FHERC.riskParameters s)).
Proof.
  unfold enc_exec, FHERC.updateRiskParametersEncrypted, FHERC.transferOwnership,
    FHERC.onlyOwner. cbn [enc_msg enc_now enc_sender]. split.
  - intros Hne. apply Z.eqb_neq in Hne. rewrite Hne. cbn. auto.
  - intros ->. rewrite Z.eqb_refl. cbn [require bind]. split; [|split].
    + eexists. repeat split.
    + intros ->. reflexivity.
    + intros Hnz. apply Z.eqb_neq in Hnz. rewrite Hnz. cbn. eexists. repeat split.
Qed.

(** ** The front end's reading of the ledger *)



